(** * PegasusSimulator: the Isaac Sim 4.5 migration scripts

    A shallow embedding of [migrate_to_isaac_4.5.py] and of the two file
    fixers of [fix_ardupilot_for_isaac_4.5.py], with the properties of the
    rule-application engine, the backups, the dry-run mode and the report.

    Conventions of the model:
    - a Python [str] is the list of its code points ([text]);
    - a [Path] is the list of its components;
    - the file system is a finite map from paths to nodes, a file holding
      the text that a text-mode [read()] returns for it;
    - [print] appends a structured line to the standard output;
    - a function that can raise returns a [result]; the state reached when
      the exception leaves the function is kept. *)

From Stdlib Require Import NArith Ascii String.
From stdpp Require Import gmap strings list fin_maps.

Local Open Scope N_scope.

(** ** Text *)

Abbreviation text := (list N).

(** The code points of an ASCII literal of the source. *)
Definition cps (s : string) : text :=
  map N_of_ascii (list_ascii_of_string s).

(** The double quote, which the literals below splice in. *)
Definition dq : string := String (ascii_of_nat 34) EmptyString.

(** [needle in hay] on Python strings. *)
Fixpoint starts_with (needle hay : text) : bool :=
  match needle, hay with
  | [], _ => true
  | a :: needle', b :: hay' => (a =? b) && starts_with needle' hay'
  | _ :: _, [] => false
  end.

Fixpoint contains (needle hay : text) : bool :=
  starts_with needle hay ||
  match hay with
  | [] => false
  | _ :: hay' => contains needle hay'
  end.

(** ** The [re] module, for the dialect the scripts use

    Patterns are made of single-character items, each taken once or under a
    greedy [*] or a lazy [*?].  This covers every pattern of the two
    scripts.  A pattern outside the dialect is [Unsupported]: the model does
    not say what Python does with it. *)

Inductive item :=
| Lit (c : N)      (* a literal code point *)
| Space            (* \s *)
| Dot.             (* .  *)

Inductive piece :=
| One (i : item)
| Star (i : item)        (* i*  *)
| StarLazy (i : item).   (* i*? *)

Abbreviation regex := (list piece).

(** [str.isspace] characters, which [\s] matches in a [str] pattern. *)
Definition is_space (c : N) : bool :=
  ((9 <=? c) && (c <=? 13)) || ((28 <=? c) && (c <=? 32)) ||
  (c =? 133) || (c =? 160) || (c =? 5760) ||
  ((8192 <=? c) && (c <=? 8202)) || (c =? 8232) || (c =? 8233) ||
  (c =? 8239) || (c =? 8287) || (c =? 12288).

(** [dotall] is the [re.DOTALL] flag. *)
Definition item_ok (dotall : bool) (i : item) (c : N) : bool :=
  match i with
  | Lit a => a =? c
  | Space => is_space c
  | Dot => dotall || negb (c =? 10)
  end.

(** *** Compilation *)

Inductive token :=
| TItem (i : item)
| TStar
| TQuestion
| TBadEscape       (* a backslash that ends the pattern *)
| TOther.          (* syntax outside the dialect *)

Definition is_alnum (c : N) : bool :=
  ((48 <=? c) && (c <=? 57)) || ((65 <=? c) && (c <=? 90)) ||
  ((97 <=? c) && (c <=? 122)).

(** The special characters of [re]: . ^ $ * + ? { } [ ] \ | ( ) *)
Definition is_special (c : N) : bool :=
  existsb (N.eqb c) (cps ".^$*+?{}[]\|()").

Fixpoint lex (p : text) : list token :=
  match p with
  | [] => []
  | 92 :: [] => [TBadEscape]
  | 92 :: c :: p' =>
      (if c =? 115 then TItem Space
       else if is_alnum c || (128 <=? c) then TOther
       else TItem (Lit c)) :: lex p'
  | c :: p' =>
      (if c =? 46 then TItem Dot
       else if c =? 42 then TStar
       else if c =? 63 then TQuestion
       else if is_special c || (128 <=? c) then TOther
       else TItem (Lit c)) :: lex p'
  end.

Inductive compiled :=
| Compiled (r : regex)
| BadPattern             (* re.error *)
| Unsupported.

Definition and_then (p : piece) (c : compiled) : compiled :=
  match c with
  | Compiled r => Compiled (p :: r)
  | other => other
  end.

(** A [*] with nothing before it ("nothing to repeat"), a [*] directly after
    a repeat ("multiple repeat") and a backslash at the end ("bad escape")
    are the errors of the dialect; the first verdict from the left wins, as
    in the one-pass parser of [re]. *)
Fixpoint build (ts : list token) : compiled :=
  match ts with
  | [] => Compiled []
  | TItem i :: TStar :: TQuestion :: ts' =>
      match ts' with
      | TStar :: _ => BadPattern
      | TQuestion :: _ => Unsupported
      | _ => and_then (StarLazy i) (build ts')
      end
  | TItem i :: TStar :: ts' =>
      match ts' with
      | TStar :: _ => BadPattern
      | _ => and_then (Star i) (build ts')
      end
  | TItem i :: TQuestion :: _ => Unsupported
  | TItem i :: ts' => and_then (One i) (build ts')
  | TStar :: _ => BadPattern      (* nothing to repeat *)
  | TBadEscape :: _ => BadPattern
  | TQuestion :: _ => Unsupported
  | TOther :: _ => Unsupported
  end.

Definition never_empty (r : regex) : bool :=
  existsb (fun p => match p with One _ => true | _ => false end) r.

(** [re.compile]: the scanning functions below are modelled for patterns
    that cannot match the empty string. *)
Definition re_compile (pattern : string) : compiled :=
  match build (lex (cps pattern)) with
  | Compiled r => if never_empty r then Compiled r else Unsupported
  | other => other
  end.

(** *** Matching

    The backtracking matcher of [re] on the dialect: a greedy star tries
    the longest run first, a lazy one the shortest, and the first way that
    lets the rest of the pattern match is taken.  [k] matches what follows
    the star; a match returns the text left after it. *)

Section Matcher.
Variable dotall : bool.

Fixpoint greedy (i : item) (k : text -> option text) (s : text) : option text :=
  match s with
  | c :: s' =>
      if item_ok dotall i c then
        match greedy i k s' with
        | Some rest => Some rest
        | None => k s
        end
      else k s
  | [] => k s
  end.

Fixpoint lazy (i : item) (k : text -> option text) (s : text) : option text :=
  match k s with
  | Some rest => Some rest
  | None =>
      match s with
      | c :: s' => if item_ok dotall i c then lazy i k s' else None
      | [] => None
      end
  end.

Fixpoint match_here (r : regex) (s : text) : option text :=
  match r with
  | [] => Some s
  | One i :: r' =>
      match s with
      | c :: s' => if item_ok dotall i c then match_here r' s' else None
      | [] => None
      end
  | Star i :: r' => greedy i (match_here r') s
  | StarLazy i :: r' => lazy i (match_here r') s
  end.

(** The leftmost match: the text before it, the matched text and the
    text after it. *)
Fixpoint search (r : regex) (s : text) : option (text * text * text) :=
  match match_here r s with
  | Some rest => Some ([], take (length s - length rest)%nat s, rest)
  | None =>
      match s with
      | [] => None
      | c :: s' =>
          match search r s' with
          | Some (before, m, rest) => Some (c :: before, m, rest)
          | None => None
          end
      end
  end.

(** The scanning loop shared by [findall] and [sub]: search, record the
    match, go on after it.  A match is never empty, so a text of [n]
    characters holds at most [n] of them. *)
Fixpoint scan_loop (n : nat) (r : regex) (s : text)
  : list (text * text) * text :=
  match n with
  | O => ([], s)
  | S n' =>
      match search r s with
      | None => ([], s)
      | Some (before, m, rest) =>
          let (segs, tail) := scan_loop n' r rest in
          ((before, m) :: segs, tail)
      end
  end.

Definition scan (r : regex) (s : text) : list (text * text) * text :=
  scan_loop (length s) r s.

Definition findall (r : regex) (s : text) : list text :=
  map snd (fst (scan r s)).

(** The text rebuilt from a scan, each match replaced by [f] of it. *)
Definition rebuild (f : text -> text) (sc : list (text * text) * text) : text :=
  concat (map (fun seg => fst seg ++ f (snd seg)) (fst sc)) ++ snd sc.

Definition sub (r : regex) (repl : text) (s : text) : text :=
  rebuild (fun _ => repl) (scan r s).
End Matcher.

(** *** The functions of the module *)

Inductive exn :=
| re_error
| ValueError
| OSError
| NotModelled.   (* the call left the modelled dialect *)

Inductive result (A : Type) :=
| Ok (a : A)
| Raise (e : exn).
Arguments Ok {A} a.
Arguments Raise {A} e.

Definition compile_or_raise (pattern : string) : result regex :=
  match re_compile pattern with
  | Compiled r => Ok r
  | BadPattern => Raise re_error
  | Unsupported => Raise NotModelled
  end.

(** A replacement template without a backslash stands for itself. *)
Definition plain_template (repl : string) : bool :=
  negb (existsb (N.eqb 92) (cps repl)).

(** [re.findall(pattern, string)] *)
Definition re_findall (pattern : string) (content : text) : result (list text) :=
  match compile_or_raise pattern with
  | Ok r => Ok (findall false r content)
  | Raise e => Raise e
  end.

(** [re.sub(pattern, repl, string, flags)] with [flags] empty or [re.DOTALL] *)
Definition re_sub (dotall : bool) (pattern repl : string) (content : text)
  : result text :=
  match compile_or_raise pattern with
  | Ok r =>
      if plain_template repl then Ok (sub dotall r (cps repl) content)
      else Raise NotModelled
  | Raise e => Raise e
  end.

Local Close Scope N_scope.

(** ** [pathlib]

    A path is the list of its components; [root / "a/b.py"] appends the
    components of the relative path. *)

Abbreviation path := (list string).

Fixpoint string_take (n : nat) (s : string) : string :=
  match n, s with
  | S n', String c s' => String c (string_take n' s')
  | _, _ => EmptyString
  end.

Fixpoint string_drop (n : nat) (s : string) : string :=
  match n, s with
  | S n', String _ s' => string_drop n' s'
  | _, _ => s
  end.

(** [name.rfind(c)] *)
Fixpoint rfind (c : ascii) (s : string) : option nat :=
  match s with
  | EmptyString => None
  | String a s' =>
      match rfind c s' with
      | Some i => Some (S i)
      | None => if Ascii.eqb a c then Some 0 else None
      end
  end.

Fixpoint string_mem (c : ascii) (s : string) : bool :=
  match s with
  | EmptyString => false
  | String a s' => Ascii.eqb a c || string_mem c s'
  end.

(** The components of a relative path given as a string: split at the
    separator, empty and [.] components dropped. *)
Fixpoint split_path (cur : string) (s : string) : path :=
  let close := if (String.eqb cur EmptyString || String.eqb cur ".")%bool then [] else [cur] in
  match s with
  | EmptyString => close
  | String a s' =>
      if Ascii.eqb a "/" then close ++ split_path EmptyString s'
      else split_path (cur +:+ String a EmptyString) s'
  end.

Definition Path (s : string) : path := split_path EmptyString s.

(** [root / file_path], for a relative [file_path] *)
Definition joinpath (root : path) (file_path : string) : path :=
  root ++ Path file_path.

(** [PurePath.name] *)
Definition path_name (p : path) : string := List.last p EmptyString.

(** [PurePath.suffix]: from the last dot of the name, unless that dot
    starts or ends the name. *)
Definition suffix_of (nm : string) : string :=
  match rfind "." nm with
  | Some i =>
      if (0 <? i) && (i <? String.length nm - 1) then string_drop i nm else EmptyString
  | None => EmptyString
  end.

Definition path_suffix (p : path) : string := suffix_of (path_name p).

(** [PurePath.with_suffix] *)
Definition with_suffix (p : path) (suf : string) : result path :=
  if string_mem "/" suf then Raise ValueError
  else if (negb (String.eqb suf EmptyString) && negb (String.prefix "." suf)
           || String.eqb suf ".")%bool then Raise ValueError
  else
    let nm := path_name p in
    if String.eqb nm EmptyString then Raise ValueError
    else
      let old_suffix := suffix_of nm in
      let nm' :=
        if String.eqb old_suffix EmptyString then nm +:+ suf
        else string_take (String.length nm - String.length old_suffix) nm +:+ suf in
      Ok (removelast p ++ [nm']).

(** [PurePath.relative_to] *)
Fixpoint relative_to (p root : path) : result path :=
  match root, p with
  | [], _ => Ok p
  | r :: root', c :: p' =>
      if String.eqb r c then relative_to p' root' else Raise ValueError
  | _ :: _, [] => Raise ValueError
  end.

(** ** The file system and the standard output *)

Inductive node :=
| File (content : text)   (* a file that decodes; its text as [read()] gives it *)
| Binary                  (* a file whose bytes do not decode *)
| Directory.

(** A change line of a report, "• shown → new". *)
Record change := { shown : text; new : string }.

(** The printed lines that carry data; rules and titles are left out. *)
Inductive line :=
| Processing (p : path)
| ErrorReading
| BackedUp (nm : string)
| Updated (n : nat)
| ChangeLine (c : change)
| NoChanges
| FileNotFound (file_path : string)
| Mode (dry_run_on backup_off : bool)
| FilesModified (n : nat)
| ArduReferences (n : nat)
| Reference (p : path)
| NeedsAttention (file_path : string)
| DryRunNote
| Complete
| Fixed
| Verifying
| IsaacImports (file : string) (found_imports : list string)
| NoDependencies (file : string)
| NotFound (file : string)
| BackendClean.

Record world := { disk : gmap path node; stdout : list line }.

(** ** Effects: state and exceptions *)

Definition M (S A : Type) : Type := S -> result A * S.

Definition ret {S A} (a : A) : M S A := fun s => (Ok a, s).

Definition raise {S A} (e : exn) : M S A := fun s => (Raise e, s).

Definition bind {S A B} (m : M S A) (f : A -> M S B) : M S B :=
  fun s =>
    match m s with
    | (Ok a, s') => f a s'
    | (Raise e, s') => (Raise e, s')
    end.

Notation "'do' x <- m ; k" := (bind m (fun x => k))
  (at level 10, x name, m at level 100, k at level 200).
Notation "'do' ' pat <- m ; k" := (bind m (fun x => match x with pat => k end))
  (at level 10, pat pattern, m at level 100, k at level 200).
Notation "m ;; k" := (bind m (fun _ => k))
  (at level 100, k at level 200, right associativity).

(** [try: m except Exception as e: ...], the outcome handed to the caller *)
Definition attempt {S A} (m : M S A) : M S (result A) :=
  fun s => let (r, s') := m s in (Ok r, s').

Definition lift_result {S A} (r : result A) : M S A :=
  match r with
  | Ok a => ret a
  | Raise e => raise e
  end.

Definition when {S} (b : bool) (m : M S unit) : M S unit :=
  if b then m else ret tt.

(** [for x in l: body(x)] *)
Fixpoint for_each {S A} (l : list A) (body : A -> M S unit) : M S unit :=
  match l with
  | [] => ret tt
  | x :: l' => body x ;; for_each l' body
  end.

Section World.
Context {S : Type} (get_world : S -> world) (set_world : world -> S -> S).

Definition print (l : line) : M S unit :=
  fun s =>
    let w := get_world s in
    (Ok tt, set_world {| disk := disk w; stdout := stdout w ++ [l] |} s).

(** [path.exists()] *)
Definition exists_ (p : path) : M S bool :=
  fun s => (Ok (bool_decide (is_Some (disk (get_world s) !! p))), s).

(** [open(p, 'r').read()]: a missing file and a directory raise an
    [OSError], bytes that do not decode a [UnicodeDecodeError], which is a
    [ValueError]. *)
Definition open_read (p : path) : M S text :=
  fun s =>
    match disk (get_world s) !! p with
    | Some (File content) => (Ok content, s)
    | Some Binary => (Raise ValueError, s)
    | _ => (Raise OSError, s)
    end.

(** [open(p, 'w').write(content)] *)
Definition open_write (p : path) (content : text) : M S unit :=
  fun s =>
    let w := get_world s in
    match disk w !! p with
    | Some Directory => (Raise OSError, s)
    | _ => (Ok tt,
            set_world {| disk := <[p := File content]> (disk w);
                         stdout := stdout w |} s)
    end.

(** [shutil.copy2(src, dst)]; a directory as [dst] receives the copy
    under the name of [src]. *)
Definition copy2 (src dst : path) : M S unit :=
  fun s =>
    let w := get_world s in
    match disk w !! src with
    | Some Directory | None => (Raise OSError, s)
    | Some n =>
        let target :=
          match disk w !! dst with
          | Some Directory => dst ++ [path_name src]
          | _ => dst
          end in
        (Ok tt,
         set_world {| disk := <[target := n]> (disk w); stdout := stdout w |} s)
    end.
End World.

(** ** [str.lower]

    ASCII letters are lower-cased by the code; the lower-casing of the other
    code points is Unicode's table, a parameter here.  It may depend on the
    characters before (nearest first) and after (the final sigma rule). *)

Section Lower.
Variable wide_lower : text -> N -> text -> text.

Definition ascii_lower (c : N) : N :=
  if ((65 <=? c) && (c <=? 90))%N then (c + 32)%N else c.

Fixpoint lower_from (before s : text) : text :=
  match s with
  | [] => []
  | c :: s' =>
      (if (c <? 128)%N then [ascii_lower c] else wide_lower before c s')
      ++ lower_from (c :: before) s'
  end.

Definition lower (s : text) : text := lower_from [] s.
End Lower.

(** ** migrate_to_isaac_4.5.py *)

Module Migrate.

(** The module's global tables, which the functions read when they run. *)
Record globals := {
  PYTHON_REPLACEMENTS : list (string * string);
  TOML_REPLACEMENTS : list (string * string);
  FILES_TO_MIGRATE_python : list string;
  FILES_TO_MIGRATE_toml : list string;
  ARDUPILOT_FILES : list string }.

Record MigrationTool := {
  root_path : path;
  dry_run : bool;
  no_backup : bool;
  changes_made : list path;
  warnings : list path }.

(** [MigrationTool(root_path, dry_run, no_backup)], the current directory
    already put for a missing [root_path]. *)
Definition new_tool (root : path) (dry no_bak : bool) : MigrationTool :=
  {| root_path := root; dry_run := dry; no_backup := no_bak;
     changes_made := []; warnings := [] |}.

Abbreviation state := (MigrationTool * world)%type.

Definition get_self : M state MigrationTool := fun s => (Ok (fst s), s).

Definition warnings_append (p : path) : M state unit :=
  fun s =>
    let t := fst s in
    (Ok tt, ({| root_path := root_path t; dry_run := dry_run t;
                no_backup := no_backup t; changes_made := changes_made t;
                warnings := warnings t ++ [p] |}, snd s)).

Definition changes_made_append (p : path) : M state unit :=
  fun s =>
    let t := fst s in
    (Ok tt, ({| root_path := root_path t; dry_run := dry_run t;
                no_backup := no_backup t; changes_made := changes_made t ++ [p];
                warnings := warnings t |}, snd s)).

Definition set_world (w : world) (s : state) : state := (fst s, w).

Abbreviation print := (print (S:=state) snd set_world).
Abbreviation exists_ := (exists_ (S:=state) snd).
Abbreviation open_read := (open_read (S:=state) snd).
Abbreviation open_write := (open_write (S:=state) snd set_world).
Abbreviation copy2 := (copy2 (S:=state) snd set_world).

(** What a change line shows on its left: the first match in
    [migrate_python_file], the pattern itself in [migrate_toml_file]. *)
Inductive shows := FirstMatch | PatternText.

(** The replacement loop of the two [migrate_*_file] methods. *)
Fixpoint replace_loop (sh : shows) (rules : list (string * string))
    (content : text) (changes : list change) : result (text * list change) :=
  match rules with
  | [] => Ok (content, changes)
  | (old_pattern, new_pattern) :: rules' =>
      match re_findall old_pattern content with
      | Raise e => Raise e
      | Ok [] => replace_loop sh rules' content changes
      | Ok (m0 :: _) =>
          match re_sub false old_pattern new_pattern content with
          | Raise e => Raise e
          | Ok content' =>
              let c := match sh with
                       | FirstMatch => {| shown := m0; new := new_pattern |}
                       | PatternText => {| shown := cps old_pattern; new := new_pattern |}
                       end in
              replace_loop sh rules' content' (changes ++ [c])
          end
      end
  end.

Section Tool.
Variable wide_lower : text -> N -> text -> text.
Variable G : globals.

(** ['ardupilot' in content.lower() or 'ArduPilot' in content] *)
Definition mentions_ardupilot (content : text) : bool :=
  contains (cps "ardupilot") (lower wide_lower content)
  || contains (cps "ArduPilot") content.

Definition backup_file (filepath : path) : M state unit :=
  do self <- get_self;
  if no_backup self || dry_run self then ret tt
  else
    do backup_path <- lift_result (with_suffix filepath (path_suffix filepath +:+ ".bak"));
    do there <- exists_ backup_path;
    if negb there then
      copy2 filepath backup_path ;;
      print (BackedUp (path_name backup_path))
    else ret tt.

(** The part of the two methods after the loop: write if changed. *)
Definition write_if_changed (filepath : path)
    (original_content content : text) (changes : list change) : M state unit :=
  do self <- get_self;
  if bool_decide (content ≠ original_content) then
    when (negb (dry_run self))
      (backup_file filepath ;; open_write filepath content) ;;
    print (Updated (length changes)) ;;
    for_each changes (fun c => print (ChangeLine c)) ;;
    changes_made_append filepath
  else print NoChanges.

Definition migrate_python_file (filepath : path) : M state unit :=
  do self <- get_self;
  do rel <- lift_result (relative_to filepath (root_path self));
  print (Processing rel) ;;
  do r <- attempt (open_read filepath);
  match r with
  | Raise _ => print ErrorReading
  | Ok original_content =>
      do '(content, changes) <-
        lift_result (replace_loop FirstMatch (PYTHON_REPLACEMENTS G)
                       original_content []);
      when (mentions_ardupilot content) (warnings_append filepath) ;;
      write_if_changed filepath original_content content changes
  end.

Definition migrate_toml_file (filepath : path) : M state unit :=
  do self <- get_self;
  do rel <- lift_result (relative_to filepath (root_path self));
  print (Processing rel) ;;
  do r <- attempt (open_read filepath);
  match r with
  | Raise _ => print ErrorReading
  | Ok original_content =>
      do '(content, changes) <-
        lift_result (replace_loop PatternText (TOML_REPLACEMENTS G)
                       original_content []);
      write_if_changed filepath original_content content changes
  end.

(** One turn of a loop of [run_migration] over a file list. *)
Definition process (migrate : path -> M state unit) (file_path : string)
  : M state unit :=
  do self <- get_self;
  let full_path := joinpath (root_path self) file_path in
  do there <- exists_ full_path;
  if there then migrate full_path else print (FileNotFound file_path).

Definition summary : M state unit :=
  do self <- get_self;
  print (FilesModified (length (changes_made self))) ;;
  when (negb (bool_decide (warnings self = [])))
    (print (ArduReferences (length (warnings self))) ;;
     for_each (warnings self) (fun warning =>
       do rel <- lift_result (relative_to warning (root_path self));
       print (Reference rel))) ;;
  for_each (ARDUPILOT_FILES G) (fun ardupilot_file =>
    do there <- exists_ (joinpath (root_path self) ardupilot_file);
    when there (print (NeedsAttention ardupilot_file))) ;;
  if dry_run self then print DryRunNote else print Complete.

Definition run_migration : M state unit :=
  do self <- get_self;
  print (Mode (dry_run self) (no_backup self)) ;;
  for_each (FILES_TO_MIGRATE_python G) (process migrate_python_file) ;;
  for_each (FILES_TO_MIGRATE_toml G) (process migrate_toml_file) ;;
  summary.
End Tool.

(** The tables of the script. *)
Definition the_module : globals := {|
  PYTHON_REPLACEMENTS := [
    ("from omni\.isaac\.core\.world import World", "from isaacsim.core.api.world import World");
    ("from omni\.isaac\.core import World", "from isaacsim.core.api import World");
    ("from omni\.isaac\.core\.objects import", "from isaacsim.core.api.objects import");
    ("from omni\.isaac\.dynamic_control import", "from isaacsim.core.dynamic_control import");
    ("from omni\.isaac\.sensor import Camera", "from isaacsim.sensors.camera import Camera")
  ];
  TOML_REPLACEMENTS := [
    (dq +:+ "omni\.isaac\.core" +:+ dq +:+ "\s*=\s*\{\}",
     dq +:+ "isaacsim.core.api" +:+ dq +:+ " = {}")
  ];
  FILES_TO_MIGRATE_python := [
    "examples/0_template_app.py";
    "examples/1_px4_single_vehicle.py";
    "examples/2_px4_multi_vehicle.py";
    "examples/3_ros2_single_vehicle.py";
    "examples/4_python_single_vehicle.py";
    "examples/5_python_multi_vehicle.py";
    "examples/6_paper_results.py";
    "examples/8_camera_vehicle.py";
    "examples/9_people.py";
    "examples/10_graphs.py";
    "examples/11_ardupilot_multi_vehicle.py";
    "extensions/pegasus.simulator/pegasus/simulator/logic/vehicles/vehicle.py";
    "extensions/pegasus.simulator/pegasus/simulator/logic/vehicles/multirotor.py";
    "extensions/pegasus.simulator/pegasus/simulator/logic/interface/pegasus_interface.py";
    "extensions/pegasus.simulator/pegasus/simulator/logic/backends/ros2_backend.py";
    "extensions/pegasus.simulator/pegasus/simulator/logic/people_backends/ros2_people_backend.py";
    "extensions/pegasus.simulator/pegasus/simulator/logic/people/person.py";
    "extensions/pegasus.simulator/pegasus/simulator/logic/graphs/ros2_camera_graph.py";
    "extensions/pegasus.simulator/pegasus/simulator/logic/graphical_sensors/monocular_camera.py"
  ];
  FILES_TO_MIGRATE_toml := [
    "extensions/pegasus.simulator/config/extension.toml"
  ];
  ARDUPILOT_FILES := [
    "extensions/pegasus.simulator/pegasus/simulator/logic/backends/ardupilot_mavlink_backend.py";
    "extensions/pegasus.simulator/pegasus/simulator/logic/backends/tools/ardupilot_launch_tool.py"
  ] |}.

End Migrate.

(** ** fix_ardupilot_for_isaac_4.5.py *)

Module Fix.

Abbreviation print := (print (S:=world) id (fun w _ => w)).
Abbreviation exists_ := (exists_ (S:=world) id).
Abbreviation open_read := (open_read (S:=world) id).
Abbreviation open_write := (open_write (S:=world) id (fun w _ => w)).
Abbreviation copy2 := (copy2 (S:=world) id (fun w _ => w)).

Definition dynamic_control_pattern : string :=
  "from omni\.isaac\.dynamic_control import _dynamic_control".

Definition dynamic_control_import : string :=
  "from isaacsim.core.dynamic_control import _dynamic_control".

Definition func_pattern : string :=
  "def get_world_transform_xform\(prim: Usd\.Prim\):.*?return rotation".

Definition new_function : string :=
    "def get_world_transform_xform(prim: Usd.Prim):
    " +:+
    dq +:+
    dq +:+
    dq +:+
    "
    Get the local transformation of a prim using USD APIs directly.
    Compatible with Isaac Sim 4.5.
    
    Args:
        prim (Usd.Prim): The prim to calculate the world transformation.
    Returns:
        Gf.Rotation: The rotation component of the world transform.
    " +:+
    dq +:+
    dq +:+
    dq +:+
    "
    from pxr import UsdGeom
    
    # Get the xformable interface
    xformable = UsdGeom.Xformable(prim)
    if not xformable:
        carb.log_error(f" +:+
    dq +:+
    "Prim {prim.GetPath()} is not xformable" +:+
    dq +:+
    ")
        return Gf.Rotation()
    
    # Compute world transform at default time
    time = Usd.TimeCode.Default()
    world_transform = xformable.ComputeLocalToWorldTransform(time)
    
    # Extract rotation using Gf.Transform
    transform = Gf.Transform(world_transform)
    return transform.GetRotation()".

(** The backup made by both fixers, before anything is rewritten. *)
Definition backup (filepath : path) : M world unit :=
  do backup_path <- lift_result (with_suffix filepath ".py.ardupilot_backup");
  do there <- exists_ backup_path;
  if negb there then
    copy2 filepath backup_path ;;
    print (BackedUp (path_name backup_path))
  else ret tt.

(** The third fix of [fix_vehicle_file] tests the content and does nothing
    ([pass]); it has no counterpart here. *)
Definition fix_vehicle_file (filepath : path) : M world unit :=
  print (Processing filepath) ;;
  do content <- open_read filepath;
  backup filepath ;;
  let original_content := content in
  do content <- lift_result
    (re_sub false dynamic_control_pattern dynamic_control_import content);
  do content <- lift_result (re_sub true func_pattern new_function content);
  if bool_decide (content ≠ original_content) then
    open_write filepath content ;;
    print Fixed
  else print NoChanges.

Definition fix_multirotor_file (filepath : path) : M world unit :=
  print (Processing filepath) ;;
  do content <- open_read filepath;
  backup filepath ;;
  let original_content := content in
  do content <- lift_result
    (re_sub false dynamic_control_pattern dynamic_control_import content);
  if bool_decide (content ≠ original_content) then
    open_write filepath content ;;
    print Fixed
  else print NoChanges.

(** The lists of [verify_ardupilot_backend]. *)
Definition ardupilot_files : list string :=
  ["ardupilot_mavlink_backend.py";
   "tools/ardupilot_launch_tool.py";
   "tools/ArduPilotPlugin.py"].

Definition isaac_imports : list string :=
  ["omni.isaac"; "isaacsim"; "omni.usd"; "omni.kit"].

(** The loop of [verify_ardupilot_backend] over the files that are left;
    [issues_found] is the flag as the turns before have set it. *)
Fixpoint verify_loop (backend_dir : path) (files : list string)
    (issues_found : bool) : M world bool :=
  match files with
  | [] => ret issues_found
  | file :: files' =>
      let filepath := joinpath backend_dir file in
      do there <- exists_ filepath;
      if there then
        do content <- open_read filepath;
        let found_imports :=
          List.filter (fun imp => contains (cps imp) content) isaac_imports in
        match found_imports with
        | _ :: _ =>
            print (IsaacImports file found_imports) ;;
            verify_loop backend_dir files' true
        | [] =>
            print (NoDependencies file) ;;
            verify_loop backend_dir files' issues_found
        end
      else
        print (NotFound file) ;;
        verify_loop backend_dir files' issues_found
  end.

Definition verify_ardupilot_backend (backend_dir : path) : M world unit :=
  print Verifying ;;
  do issues_found <- verify_loop backend_dir ardupilot_files false;
  when (negb issues_found) (print BackendClean).

End Fix.

Import Migrate.

(** ** Notions used by the statements *)

(** The language of a pattern: the texts it can match, whatever the order
    in which the matcher tries them. *)
Inductive lang (dotall : bool) : regex -> text -> Prop :=
| lang_nil : lang dotall [] []
| lang_one i r c m :
    item_ok dotall i c = true -> lang dotall r m ->
    lang dotall (One i :: r) (c :: m)
| lang_star i r w m :
    Forall (fun c => item_ok dotall i c = true) w -> lang dotall r m ->
    lang dotall (Star i :: r) (w ++ m)
| lang_lazy i r w m :
    Forall (fun c => item_ok dotall i c = true) w -> lang dotall r m ->
    lang dotall (StarLazy i :: r) (w ++ m).

(** [dead r x]: the pattern fails on every text that starts with [x],
    within its leading single items. *)
Fixpoint dead (dotall : bool) (r : regex) (x : text) : bool :=
  match r, x with
  | One i :: r', c :: x' => negb (item_ok dotall i c) || dead dotall r' x'
  | _, _ => false
  end.

(** [guarded f g prev z]: in [z] every [f] is followed by a character other
    than [g]; [prev] tells that an [f] stands just before [z]. *)
Fixpoint guarded (f g : N) (prev : bool) (z : text) : bool :=
  match z with
  | [] => negb prev
  | d :: z' => negb (prev && (d =? g)%N) && guarded f g (d =? f)%N z'
  end.

(** The same, for every text of the language of [r]; [may_f] tells that an
    [f] may stand just before. *)
Fixpoint shielded (dotall : bool) (f g : N) (may_f : bool) (r : regex) : bool :=
  match r with
  | [] => negb may_f
  | One i :: r' =>
      negb (may_f && item_ok dotall i g)
      && shielded dotall f g (item_ok dotall i f) r'
  | Star i :: r' | StarLazy i :: r' =>
      negb (may_f && item_ok dotall i g)
      && negb (item_ok dotall i f && item_ok dotall i g)
      && shielded dotall f g (may_f || item_ok dotall i f) r'
  end.

(** [apart r repl]: a text obtained by substituting [repl] holds no match of
    [r] that the substitution made.  No match of [r] starts inside [repl],
    and none runs from the text before [repl] into it. *)
Definition apart (r : regex) (repl : text) : bool :=
  match r, repl with
  | One _ :: r', f :: g :: _ =>
      forallb (fun k => dead false r (drop k repl)) (seq 0 (length repl))
      && shielded false f g false r'
  | _, _ => false
  end.

(** The rules of a table, compiled. *)
Definition compile_rule (rule : string * string) : option (regex * text) :=
  match re_compile (fst rule) with
  | Compiled r =>
      if plain_template (snd rule) then Some (r, cps (snd rule)) else None
  | _ => None
  end.

Fixpoint compile_rules (rules : list (string * string))
  : option (list (regex * text)) :=
  match rules with
  | [] => Some []
  | rule :: rules' =>
      match compile_rule rule, compile_rules rules' with
      | Some cr, Some crs => Some (cr :: crs)
      | _, _ => None
      end
  end.

(** The text after all substitutions of a compiled table, in order. *)
Definition substitute_all (crs : list (regex * text)) (s : text) : text :=
  fold_left (fun s cr => sub false (fst cr) (snd cr) s) crs s.

(** Every pattern of the table is apart from every replacement of it. *)
Definition settled (crs : list (regex * text)) : bool :=
  forallb (fun p => forallb (fun q => apart (fst p) (snd q)) crs) crs.

(** The path at which [backup_file] keeps the backup of [p]: the name of
    [p] with [.bak] at its end. *)
Definition bak (p : path) : path :=
  removelast p ++ [path_name p +:+ ".bak"].

(** A component of a path on disk: not empty, without separator. *)
Definition valid_name (nm : string) : bool :=
  negb (String.eqb nm EmptyString) && negb (string_mem "/" nm).

(** The disk after the backup and the write of a changed file, in a live
    run; the disk as it was, in a dry run. *)
Definition disk_written (t : MigrationTool) (p : path)
    (original content : text) (d : gmap path node) : gmap path node :=
  if dry_run t then d
  else <[p := File content]>
         (if no_backup t then d
          else match d !! bak p with
               | Some _ => d
               | None => <[bak p := File original]> d
               end).

Definition backup_lines (t : MigrationTool) (p : path) (d : gmap path node)
  : list line :=
  if negb (dry_run t) && negb (no_backup t) && bool_decide (d !! bak p = None)
  then [BackedUp (path_name (bak p))] else [].

Definition with_warning (flag : bool) (p : path) (t : MigrationTool)
  : MigrationTool :=
  {| root_path := root_path t; dry_run := dry_run t; no_backup := no_backup t;
     changes_made := changes_made t;
     warnings := warnings t ++ (if flag then [p] else []) |}.

Definition with_change (changed : bool) (p : path) (t : MigrationTool)
  : MigrationTool :=
  {| root_path := root_path t; dry_run := dry_run t; no_backup := no_backup t;
     changes_made := changes_made t ++ (if changed then [p] else []);
     warnings := warnings t |}.

Definition with_lines (l : list line) (w : world) : world :=
  {| disk := disk w; stdout := stdout w ++ l |}.

(** The state after a [migrate_*_file] call that read [original] and had
    [content] and [changes] from its loop; [flag] tells whether the file
    goes to the warnings. *)
Definition migrated (flag : bool) (p rel : path) (original content : text)
    (changes : list change) (s : state) : state :=
  let t := fst s in
  let w := snd s in
  let changed := bool_decide (content ≠ original) in
  (with_change changed p (with_warning flag p t),
   {| disk := if changed then disk_written t p original content (disk w)
              else disk w;
      stdout := stdout w ++ Processing rel ::
                (if changed then
                   backup_lines t p (disk w)
                   ++ Updated (length changes) :: map ChangeLine changes
                 else [NoChanges]) |}).

(** *** A run, file by file *)

Inductive kind := Python | Toml.

(** The files of a run in the order of [run_migration], each with the
    method that treats it. *)
Definition jobs (G : globals) : list (kind * string) :=
  map (pair Python) (FILES_TO_MIGRATE_python G)
  ++ map (pair Toml) (FILES_TO_MIGRATE_toml G).

(** The loop of the method of kind [k], on the text [c]. *)
Definition loop_of (G : globals) (k : kind) (c : text)
  : result (text * list change) :=
  match k with
  | Python => replace_loop FirstMatch (PYTHON_REPLACEMENTS G) c []
  | Toml => replace_loop PatternText (TOML_REPLACEMENTS G) c []
  end.

(** One turn of [run_migration] on a file of the lists, as a function of
    the state. *)
Definition step (W : text -> N -> text -> text) (G : globals)
    (j : kind * string) : M state unit :=
  fun s =>
    let rel := Path (snd j) in
    let p := root_path (fst s) ++ rel in
    match disk (snd s) !! p with
    | None => (Ok tt, (fst s, with_lines [FileNotFound (snd j)] (snd s)))
    | Some (File original) =>
        match loop_of G (fst j) original with
        | Ok (content, changes) =>
            (Ok tt,
             migrated (match fst j with
                       | Python => mentions_ardupilot W content
                       | Toml => false
                       end) p rel original content changes s)
        | Raise e => (Raise e, (fst s, with_lines [Processing rel] (snd s)))
        end
    | Some _ =>
        (Ok tt, (fst s, with_lines [Processing rel; ErrorReading] (snd s)))
    end.

(** The relative paths of a run are well formed: each has a name, no two
    are the same, and none is the backup of another. *)
Definition good_targets (rels : list path) : bool :=
  forallb (fun r => negb (bool_decide (r = []))
                    && valid_name (path_name r)
                    && negb (bool_decide (bak r ∈ rels))) rels
  && bool_decide (NoDup rels).

Definition targets (G : globals) : list path :=
  map (fun j => Path (snd j)) (jobs G).

(** The tables of the script with other replacement rules. *)
Definition with_rules (python toml : list (string * string)) : globals :=
  {| PYTHON_REPLACEMENTS := python;
     TOML_REPLACEMENTS := toml;
     FILES_TO_MIGRATE_python := FILES_TO_MIGRATE_python the_module;
     FILES_TO_MIGRATE_toml := FILES_TO_MIGRATE_toml the_module;
     ARDUPILOT_FILES := ARDUPILOT_FILES the_module |}.

(** The target of a job under [root]. *)
Definition tgt (root : path) (j : kind * string) : path :=
  root ++ Path (snd j).

(** The text that the loop of kind [k] makes of [c]. *)
Definition new_text (G : globals) (k : kind) (c : text) : text :=
  match loop_of G k c with
  | Ok (c', _) => c'
  | Raise _ => c
  end.

(** On the disk [d], the job changes its file. *)
Definition changed (G : globals) (root : path) (d : gmap path node)
    (j : kind * string) : bool :=
  match d !! tgt root j with
  | Some (File c) => bool_decide (new_text G (fst j) c ≠ c)
  | _ => false
  end.

(** On the disk [d], the job sends its file to the warnings. *)
Definition flagged (W : text -> N -> text -> text) (G : globals) (root : path)
    (d : gmap path node) (j : kind * string) : bool :=
  match fst j, d !! tgt root j with
  | Python, Some (File c) => mentions_ardupilot W (new_text G Python c)
  | _, _ => false
  end.

(** What a live run of kind [k] leaves where [o] was. *)
Definition after_live (G : globals) (k : kind) (o : option node) : option node :=
  match o with
  | Some (File c) => Some (File (new_text G k c))
  | _ => o
  end.

(** No two of the relative paths are the same, each has a name, and none
    is the backup of another. *)
Definition indep (rels : list path) : Prop :=
  NoDup rels /\
  forall r, r ∈ rels ->
    r <> [] /\ valid_name (path_name r) = true /\ (bak r ∉ rels).

(** A computation that leaves a relation between the state before it and
    the state after it, also when it raises. *)
Definition preserves {A} (R : state -> state -> Prop) (m : M state A) : Prop :=
  forall s, R s (snd (m s)).

(** The tool and the disk are as before; lines may have been printed. *)
Definition only_prints (s s' : state) : Prop :=
  fst s' = fst s /\ disk (snd s') = disk (snd s) /\
  exists l, stdout (snd s') = stdout (snd s) ++ l.

Definition same_warnings (s s' : state) : Prop :=
  warnings (fst s') = warnings (fst s).

(** One run of the script in a fresh process, and runs one after another:
    each with its rule tables and its two flags. *)
Definition run_world (W : text -> N -> text -> text) (root : path)
    (cfg : list (string * string) * list (string * string) * bool * bool)
    (w : world) : world :=
  let '(python, toml, dry, no_bak) := cfg in
  snd (snd (run_migration W (with_rules python toml)
              (new_tool root dry no_bak, w))).

Definition runs (W : text -> N -> text -> text) (root : path)
    (cfgs : list (list (string * string) * list (string * string) * bool * bool))
    (w : world) : world :=
  fold_left (fun w cfg => run_world W root cfg w) cfgs w.

(** A computation that returns from every state. *)
Definition total {A} (m : M state A) : Prop :=
  forall s, exists a, fst (m s) = Ok a.

(** The two rule tables of the script, compiled. *)
Definition compiled_python : list (regex * text) :=
  default [] (compile_rules (PYTHON_REPLACEMENTS the_module)).

Definition compiled_toml : list (regex * text) :=
  default [] (compile_rules (TOML_REPLACEMENTS the_module)).

Definition compiled_of (k : kind) : list (regex * text) :=
  match k with
  | Python => compiled_python
  | Toml => compiled_toml
  end.

(** *** The fixers *)

(** The compiled form of a pattern of the scripts. *)
Definition regex_of (pattern : string) : regex :=
  match re_compile pattern with
  | Compiled r => r
  | _ => []
  end.

(** The first fix: the import of the dynamic control extension. *)
Definition fix_dynamic_control (c : text) : text :=
  sub false (regex_of Fix.dynamic_control_pattern)
    (cps Fix.dynamic_control_import) c.

(** The two fixes of [fix_vehicle_file], one after the other. *)
Definition fixed_vehicle (c : text) : text :=
  sub true (regex_of Fix.func_pattern) (cps Fix.new_function)
    (fix_dynamic_control c).

(** The disk with the backup [bp] of a file that holds [c], made unless
    something is there already. *)
Definition backed_up (bp : path) (c : text) (d : gmap path node)
  : gmap path node :=
  match d !! bp with
  | Some _ => d
  | None => <[bp := File c]> d
  end.

(** The world after a fixer that read [c] from [p], keeps its backup at
    [bp] and computed [c']. *)
Definition fixer_done (p bp : path) (c c' : text) (w : world) : world :=
  {| disk := if bool_decide (c' ≠ c)
             then <[p := File c']> (backed_up bp c (disk w))
             else backed_up bp c (disk w);
     stdout := stdout w ++ Processing p ::
               (if bool_decide (disk w !! bp = None)
                then [BackedUp (path_name bp)] else [])
               ++ [if bool_decide (c' ≠ c) then Fixed else NoChanges] |}.

(** A table of wide characters that lower-cases none: for examples. *)
Definition no_wide_lower : text -> N -> text -> text := fun _ c _ => [c].

(** *** A small tree, for the examples *)

Definition example_root : path := ["repo"].

Definition people_py : path := joinpath example_root "examples/9_people.py".

Definition extension_toml : path :=
  joinpath example_root "extensions/pegasus.simulator/config/extension.toml".

Definition old_import : string := "from omni.isaac.core import World".

Definition old_dependency : string :=
  dq +:+ "omni.isaac.core" +:+ dq +:+ "  =  {}".

Definition example_world : world :=
  {| disk := <[people_py := File (cps old_import)]>
               (<[extension_toml := File (cps old_dependency)]> ∅);
     stdout := [] |}.

Definition multirotor_py : path := ["repo"; "multirotor.py"].

Definition fixer_world : world :=
  {| disk := <[multirotor_py := File (cps "import os")]> ∅; stdout := [] |}.

(** The small tree with a backup of one file already there. *)
Definition kept_world : world :=
  {| disk := <[bak people_py := File (cps "first")]> (disk example_world);
     stdout := [] |}.

(** The small tree with a file that does not decode. *)
Definition binary_world : world :=
  {| disk := <[people_py := Binary]> ∅; stdout := [] |}.

Definition world_rule : string * string :=
  ("from omni\.isaac\.core import World", "from isaacsim.core.api import World").

(** *** The cuts of a scan *)

(** A text of the language of [r] starts at position [i] of [s]. *)
Definition occurs_at (dotall : bool) (r : regex) (s : text) (i : nat) : Prop :=
  exists m rest, drop i s = m ++ rest /\ lang dotall r m.

(** [cut_all dotall r segs tail s]: the pieces [segs] and the end [tail] cut
    [s] at every occurrence of [r], from left to right and without overlap.
    Each piece is a text in which no occurrence starts, followed by the
    occurrence that the matcher takes there; the pieces go on where the
    occurrence ends; no occurrence starts in [tail]. *)
Fixpoint cut_all (dotall : bool) (r : regex) (segs : list (text * text))
    (tail s : text) : Prop :=
  match segs with
  | [] => s = tail /\ forall i, ~ occurs_at dotall r s i
  | (before, m) :: segs' =>
      exists rest,
        s = before ++ m ++ rest /\
        (forall i, (i < length before)%nat -> ~ occurs_at dotall r s i) /\
        lang dotall r m /\
        match_here dotall r (m ++ rest) = Some rest /\
        cut_all dotall r segs' tail rest
  end.

(** A text with three imports of [World], for the examples. *)
Definition three_imports : string :=
  "from omni.isaac.core import World; from omni.isaac.core import World; from omni.isaac.core import World".

(** *** Trees for the fixers *)

Definition vehicle_py : path := ["repo"; "vehicle.py"].

(** A vehicle file in which a second function ends as the first does. *)
Definition vehicle_text : string :=
  "def get_world_transform_xform(prim: Usd.Prim):
    return rotation

def heading(rotation):
    return rotation
".

Definition vehicle_world : world :=
  {| disk := <[vehicle_py := File (cps vehicle_text)]> ∅; stdout := [] |}.

Definition readme : path := ["repo"; "README.md"].

(** A backend directory: one file with an import of Isaac Sim, one without,
    and the third missing. *)
Definition backends : path := ["repo"; "backends"].

Definition backend_world : world :=
  {| disk := <[joinpath backends "ardupilot_mavlink_backend.py"
                 := File (cps "import omni.usd; import omni.kit.app")]>
               (<[joinpath backends "tools/ArduPilotPlugin.py"
                    := File (cps "import socket")]> ∅);
     stdout := [] |}.

(** No text of an existing file of the list holds one of the imports. *)
Definition backend_clean (backend_dir : path) (d : gmap path node) : Prop :=
  forall file c imp,
    In file Fix.ardupilot_files ->
    d !! joinpath backend_dir file = Some (File c) ->
    In imp Fix.isaac_imports ->
    contains (cps imp) c = false.

(** A tree with a file that holds the old import of the dynamic control
    extension. *)
Definition control_world : world :=
  {| disk := <[multirotor_py :=
                 File (cps "from omni.isaac.dynamic_control import _dynamic_control")]>
               (<[readme := File (cps "Pegasus Simulator")]> ∅);
     stdout := [] |}.

(** *** The verifier *)

(** What [verify_ardupilot_backend] prints for a file of its list: that it
    is missing, that it holds none of the imports, or the imports it holds,
    in the order of the list. *)
Definition verdict (file : string) (o : option node) : option line :=
  match o with
  | None => Some (NotFound file)
  | Some (File c) =>
      match List.filter (fun imp => contains (cps imp) c) Fix.isaac_imports with
      | [] => Some (NoDependencies file)
      | found => Some (IsaacImports file found)
      end
  | Some _ => None
  end.

(** Each file of the list is missing or is a file that can be read. *)
Definition readable (backend_dir : path) (files : list string)
    (d : gmap path node) : Prop :=
  forall file, In file files ->
    d !! joinpath backend_dir file = None \/
    exists c, d !! joinpath backend_dir file = Some (File c).

(** * Properties *)

(** ** The matcher *)

Section MatcherFacts.
Variable dotall : bool.
Implicit Types (r : regex) (s m rest : text) (i : item).

Local Abbreviation ok i := (fun c => item_ok dotall i c = true).

Lemma greedy_Some i k s rest :
  greedy dotall i k s = Some rest ->
  exists w s', s = w ++ s' /\ Forall (ok i) w /\ k s' = Some rest.
Proof.
  induction s as [|c s IH]; simpl.
  - intros H. exists [], []. auto.
  - destruct (item_ok dotall i c) eqn:Hc.
    + destruct (greedy dotall i k s) eqn:Hg.
      * intros [= <-]. destruct (IH eq_refl) as (w & s' & -> & Hw & Hk).
        exists (c :: w), s'. auto.
      * intros H. exists [], (c :: s). auto.
    + intros H. exists [], (c :: s). auto.
Qed.

Lemma greedy_None i k s :
  greedy dotall i k s = None ->
  forall w s', s = w ++ s' -> Forall (ok i) w -> k s' = None.
Proof.
  induction s as [|c s IH]; simpl; intros H w s' E Hw.
  - destruct w; [simpl in E; subst; exact H | discriminate].
  - destruct w as [|d w]; simpl in E.
    + subst s'. destruct (item_ok dotall i c); [|exact H].
      destruct (greedy dotall i k s); [discriminate | exact H].
    + injection E as -> ->. inversion Hw as [|? ? Hd Hw']; subst.
      simpl in Hd. rewrite Hd in H.
      destruct (greedy dotall i k (w ++ s')) eqn:Hg; [discriminate|].
      eapply IH; eauto.
Qed.

Lemma lazy_Some i k s rest :
  lazy dotall i k s = Some rest ->
  exists w s', s = w ++ s' /\ Forall (ok i) w /\ k s' = Some rest.
Proof.
  induction s as [|c s IH]; simpl.
  - destruct (k []) eqn:Hk; [|discriminate].
    intros [= <-]. exists [], []. auto.
  - destruct (k (c :: s)) eqn:Hk.
    + intros [= <-]. exists [], (c :: s). auto.
    + destruct (item_ok dotall i c) eqn:Hc; [|discriminate].
      intros H. destruct (IH H) as (w & s' & -> & Hw & Hk').
      exists (c :: w), s'. auto.
Qed.

Lemma lazy_None i k s :
  lazy dotall i k s = None ->
  forall w s', s = w ++ s' -> Forall (ok i) w -> k s' = None.
Proof.
  induction s as [|c s IH]; simpl; intros H w s' E Hw.
  - destruct w; [simpl in E; subst | discriminate].
    destruct (k []); [discriminate | reflexivity].
  - destruct (k (c :: s)) eqn:Hk; [discriminate|].
    destruct w as [|d w]; simpl in E.
    + subst s'. exact Hk.
    + injection E as -> ->. inversion Hw as [|? ? Hd Hw']; subst.
      simpl in Hd. rewrite Hd in H. eapply IH; eauto.
Qed.

(** A match is a text of the language, and what is left follows it. *)
Lemma match_here_sound r : forall s rest,
  match_here dotall r s = Some rest ->
  exists m, s = m ++ rest /\ lang dotall r m.
Proof.
  induction r as [|[i|i|i] r IH]; simpl; intros s rest H.
  - injection H as <-. exists []. split; [reflexivity | constructor].
  - destruct s as [|c s]; [discriminate|].
    destruct (item_ok dotall i c) eqn:Hc; [|discriminate].
    destruct (IH _ _ H) as (m & -> & Hm).
    exists (c :: m). split; [reflexivity | by constructor].
  - destruct (greedy_Some _ _ _ _ H) as (w & s' & -> & Hw & Hk).
    destruct (IH _ _ Hk) as (m & -> & Hm).
    exists (w ++ m). split; [by rewrite app_assoc | by constructor].
  - destruct (lazy_Some _ _ _ _ H) as (w & s' & -> & Hw & Hk).
    destruct (IH _ _ Hk) as (m & -> & Hm).
    exists (w ++ m). split; [by rewrite app_assoc | by constructor].
Qed.

(** Every text of the language, whatever follows it, lets the matcher
    succeed. *)
Lemma match_here_complete r m :
  lang dotall r m -> forall rest, is_Some (match_here dotall r (m ++ rest)).
Proof.
  induction 1 as [|i r c m Hc _ IH|i r w m Hw _ IH|i r w m Hw _ IH];
    intros rest; simpl.
  - eauto.
  - rewrite Hc. apply IH.
  - destruct (greedy dotall i (match_here dotall r) ((w ++ m) ++ rest)) eqn:Hg;
      [eauto|].
    assert (match_here dotall r (m ++ rest) = None) as Hn
      by (eapply greedy_None; [exact Hg | by rewrite app_assoc | done]).
    destruct (IH rest) as [x Hx]. congruence.
  - destruct (lazy dotall i (match_here dotall r) ((w ++ m) ++ rest)) eqn:Hg;
      [eauto|].
    assert (match_here dotall r (m ++ rest) = None) as Hn
      by (eapply lazy_None; [exact Hg | by rewrite app_assoc | done]).
    destruct (IH rest) as [x Hx]. congruence.
Qed.

Lemma lang_never_empty r m :
  never_empty r = true -> lang dotall r m -> m <> [].
Proof.
  intros Hr H. induction H as [|i r c m _ _ _|i r w m _ _ IH|i r w m _ _ IH];
    simpl in Hr; try done.
  - intros E. apply app_eq_nil in E as [_ E]. by apply IH.
  - intros E. apply app_eq_nil in E as [_ E]. by apply IH.
Qed.

Lemma match_here_shorter r s rest :
  never_empty r = true -> match_here dotall r s = Some rest ->
  (length rest < length s)%nat.
Proof.
  intros Hr H. destruct (match_here_sound _ _ _ H) as (m & -> & Hm).
  pose proof (lang_never_empty _ _ Hr Hm).
  rewrite length_app. destruct m; [done | simpl; lia].
Qed.

Lemma match_here_nil r :
  never_empty r = true -> match_here dotall r [] = None.
Proof.
  intros Hr. destruct (match_here dotall r []) eqn:H; [|done].
  apply match_here_shorter in H; [simpl in H; lia | done].
Qed.

Lemma dead_sound r : forall x y,
  dead dotall r x = true -> match_here dotall r (x ++ y) = None.
Proof.
  induction r as [|[i|i|i] r IH]; intros [|c x] y; simpl; try done.
  intros H. destruct (item_ok dotall i c); simpl in H; [|done].
  by apply IH.
Qed.
End MatcherFacts.

(** ** Scanning *)

Section ScanFacts.
Variable dotall : bool.
Variable r : regex.
Hypothesis Hr : never_empty r = true.

Lemma search_Some : forall s before m rest,
  search dotall r s = Some (before, m, rest) ->
  s = before ++ m ++ rest /\
  match_here dotall r (m ++ rest) = Some rest /\
  lang dotall r m /\
  forall i, (i < length before)%nat -> match_here dotall r (drop i s) = None.
Proof.
  induction s as [|c s IH]; intros before m rest; simpl.
  - rewrite match_here_nil by done. discriminate.
  - destruct (match_here dotall r (c :: s)) as [rest0|] eqn:Hm.
    + intros [= <- <- <-].
      destruct (match_here_sound _ _ _ _ Hm) as (m0 & E & Hl).
      assert (take (length (c :: s) - length rest0) (c :: s) = m0) as Ht.
      { rewrite E, length_app.
        replace (length m0 + length rest0 - length rest0)%nat
          with (length m0) by lia.
        apply take_app_length. }
      simpl in Ht. rewrite Ht. simpl. rewrite <- E.
      repeat split; auto. intros i Hi. simpl in Hi. lia.
    + destruct (search dotall r s) as [[[b0 m0] rest0]|] eqn:Hs; [|discriminate].
      intros [= <- <- <-].
      destruct (IH _ _ _ eq_refl) as (E & Hm0 & Hl & Hb).
      rewrite E at 1. repeat split; auto.
      intros [|i] Hi; simpl; [exact Hm|]. apply Hb. simpl in Hi. lia.
Qed.

Lemma search_None : forall s,
  search dotall r s = None -> forall i, match_here dotall r (drop i s) = None.
Proof.
  induction s as [|c s IH]; simpl; intros H i.
  - rewrite drop_nil. by apply match_here_nil.
  - destruct (match_here dotall r (c :: s)) eqn:Hm; [discriminate|].
    destruct (search dotall r s) as [[[? ?] ?]|] eqn:Hs; [discriminate|].
    destruct i as [|i]; simpl; [exact Hm | by apply IH].
Qed.

Lemma search_shorter s before m rest :
  search dotall r s = Some (before, m, rest) -> (length rest < length s)%nat.
Proof.
  intros H. destruct (search_Some _ _ _ _ H) as (-> & _ & Hl & _).
  pose proof (lang_never_empty _ _ _ Hr Hl).
  rewrite !length_app. destruct m; [done | simpl; lia].
Qed.

(** The loop has turns enough: more of them change nothing. *)
Lemma scan_loop_enough : forall n k s,
  (length s <= n)%nat -> (length s <= k)%nat ->
  scan_loop dotall n r s = scan_loop dotall k r s.
Proof.
  induction n as [|n IH]; intros k s Hn Hk.
  - destruct s; [|simpl in Hn; lia].
    destruct k; simpl; [done|]. by rewrite match_here_nil.
  - destruct k as [|k].
    + destruct s; [|simpl in Hk; lia]. simpl. by rewrite match_here_nil.
    + cbn [scan_loop].
      destruct (search dotall r s) as [[[b m] rest]|] eqn:Hs; [|done].
      apply search_shorter in Hs.
      rewrite (IH k rest) by lia. done.
Qed.

Lemma scan_eq s :
  scan dotall r s =
  match search dotall r s with
  | None => ([], s)
  | Some (before, m, rest) =>
      let (segs, tail) := scan dotall r rest in ((before, m) :: segs, tail)
  end.
Proof.
  unfold scan. destruct s as [|c s].
  - simpl. by rewrite match_here_nil.
  - cbn [length scan_loop].
    destruct (search dotall r (c :: s)) as [[[b m] rest]|] eqn:Hs; [|done].
    apply search_shorter in Hs. simpl in Hs.
    rewrite (scan_loop_enough (length s) (length rest) rest) by lia. done.
Qed.

(** [sub] and [findall], one step at a time. *)
Lemma sub_eq repl s :
  sub dotall r repl s =
  match match_here dotall r s with
  | Some rest => repl ++ sub dotall r repl rest
  | None =>
      match s with
      | [] => []
      | c :: s' => c :: sub dotall r repl s'
      end
  end.
Proof.
  unfold sub. rewrite (scan_eq s). destruct s as [|c s]; simpl.
  - by rewrite match_here_nil.
  - destruct (match_here dotall r (c :: s)) as [rest|] eqn:Hm.
    + destruct (scan dotall r rest) as [segs tail].
      unfold rebuild. simpl. by rewrite <- app_assoc.
    + rewrite (scan_eq s).
      destruct (search dotall r s) as [[[b m] rest]|]; [|done].
      destruct (scan dotall r rest) as [segs tail]. done.
Qed.

Lemma findall_eq s :
  findall dotall r s =
  match search dotall r s with
  | None => []
  | Some (_, m, rest) => m :: findall dotall r rest
  end.
Proof.
  unfold findall. rewrite (scan_eq s).
  destruct (search dotall r s) as [[[b m] rest]|]; [|done].
  destruct (scan dotall r rest) as [segs tail]. done.
Qed.

(** The scan cuts the text: putting the matches back gives it again. *)
Lemma rebuild_scan s : rebuild (fun m => m) (scan dotall r s) = s.
Proof.
  induction s as [s IH] using (induction_ltof1 _ (@length N)).
  unfold ltof in IH. rewrite scan_eq.
  destruct (search dotall r s) as [[[b m] rest]|] eqn:Hs; [|done].
  pose proof (search_shorter _ _ _ _ Hs) as Hlt.
  destruct (search_Some _ _ _ _ Hs) as (E & _).
  specialize (IH rest Hlt). destruct (scan dotall r rest) as [segs tail].
  unfold rebuild in *. simpl in *. rewrite <- !app_assoc, IH. by rewrite E.
Qed.

Lemma sub_no_match repl s :
  search dotall r s = None -> sub dotall r repl s = s.
Proof. intros H. unfold sub. rewrite scan_eq, H. done. Qed.

Lemma findall_nil s :
  findall dotall r s = [] <-> search dotall r s = None.
Proof.
  rewrite findall_eq.
  destruct (search dotall r s) as [[[b m] rest]|]; split; done.
Qed.

Lemma search_None_iff s :
  search dotall r s = None <-> forall i, match_here dotall r (drop i s) = None.
Proof.
  split; [apply search_None|].
  intros H. destruct (search dotall r s) as [[[b m] rest]|] eqn:Hs; [|done].
  destruct (search_Some _ _ _ _ Hs) as (E & Hm & _).
  specialize (H (length b)). rewrite E, drop_app_length in H. congruence.
Qed.
(** Where the matcher fails, no text of the language starts. *)
Lemma no_match_no_occurrence s i :
  match_here dotall r (drop i s) = None -> ~ occurs_at dotall r s i.
Proof.
  intros Hn (m & rest & E & Hm).
  destruct (match_here_complete dotall r m Hm rest) as [x Hx].
  rewrite <- E in Hx. congruence.
Qed.

(** The scan cuts the text at every occurrence: none is left between the
    pieces, and none in the end. *)
Lemma scan_cut_all s :
  cut_all dotall r (fst (scan dotall r s)) (snd (scan dotall r s)) s.
Proof.
  induction s as [s IH] using (induction_ltof1 _ (@length N)).
  unfold ltof in IH. rewrite scan_eq.
  destruct (search dotall r s) as [[[b m] rest]|] eqn:Hs.
  - pose proof (search_shorter _ _ _ _ Hs) as Hlt.
    destruct (search_Some _ _ _ _ Hs) as (E & Hm & Hl & Hb).
    specialize (IH rest Hlt). destruct (scan dotall r rest) as [segs tail].
    cbn [fst snd cut_all] in *. exists rest.
    split; [exact E|]. split; [|split; [exact Hl | split; [exact Hm | exact IH]]].
    intros i Hi. apply no_match_no_occurrence. by apply Hb.
  - cbn [fst snd cut_all]. split; [reflexivity|].
    intros i. apply no_match_no_occurrence. by apply search_None.
Qed.
End ScanFacts.

(** ** Substitution does not make new matches *)

Section Shield.
Variable dotall : bool.
Variables f g : N.

Lemma shielded_sound r m :
  lang dotall r m -> forall b prev,
  shielded dotall f g b r = true -> (prev = true -> b = true) ->
  guarded f g prev m = true.
Proof.
  induction 1 as [|i r c m Hc _ IH|i r w m Hw _ IH|i r w m Hw _ IH];
    intros b prev Hs Hp; simpl in Hs.
  - simpl. destruct prev; [|done]. rewrite Hp in Hs; done.
  - apply andb_true_iff in Hs as [H1 H2]. simpl. apply andb_true_iff. split.
    + destruct prev; [|done]. rewrite Hp in H1 by done. simpl in *.
      destruct (c =? g)%N eqn:E; [|done].
      apply N.eqb_eq in E. subst c. by rewrite Hc in H1.
    + apply (IH _ _ H2). intros E. apply N.eqb_eq in E. by subst c.
  - apply andb_true_iff in Hs as [Hs H3].
    apply andb_true_iff in Hs as [H1 H2].
    assert (forall p, (p = true -> b || item_ok dotall i f = true) ->
            guarded f g p (w ++ m) = true) as Hgen.
    { clear Hp prev. induction Hw as [|d w Hd Hw IHw]; intros p Hp; simpl.
      - by apply (IH _ _ H3).
      - apply andb_true_iff. split.
        + destruct p; [|done]. simpl. destruct (d =? g)%N eqn:E; [|done].
          apply N.eqb_eq in E. subst d. rewrite Hd in H1, H2.
          specialize (Hp eq_refl).
          destruct b, (item_ok dotall i f); simpl in *; done.
        + apply IHw. intros E. apply N.eqb_eq in E. subst d.
          rewrite Hd. by rewrite orb_true_r. }
    apply Hgen. intros E. rewrite (Hp E). done.
  - apply andb_true_iff in Hs as [Hs H3].
    apply andb_true_iff in Hs as [H1 H2].
    assert (forall p, (p = true -> b || item_ok dotall i f = true) ->
            guarded f g p (w ++ m) = true) as Hgen.
    { clear Hp prev. induction Hw as [|d w Hd Hw IHw]; intros p Hp; simpl.
      - by apply (IH _ _ H3).
      - apply andb_true_iff. split.
        + destruct p; [|done]. simpl. destruct (d =? g)%N eqn:E; [|done].
          apply N.eqb_eq in E. subst d. rewrite Hd in H1, H2.
          specialize (Hp eq_refl).
          destruct b, (item_ok dotall i f); simpl in *; done.
        + apply IHw. intros E. apply N.eqb_eq in E. subst d.
          rewrite Hd. by rewrite orb_true_r. }
    apply Hgen. intros E. rewrite (Hp E). done.
Qed.
End Shield.

Section Clean.
Variable r : regex.
Variables (f g : N) (tl : text).
Hypothesis Hr : never_empty r = true.

Local Abbreviation repl := (f :: g :: tl).

(** A guarded prefix of the substituted text is a prefix of the original
    text, and the substitution goes on after it. *)
Lemma sub_align : forall z prev t y,
  guarded f g prev z = true ->
  sub false r repl t = z ++ y ->
  exists t', t = z ++ t' /\ sub false r repl t' = y.
Proof.
  induction z as [|d z IH]; intros prev t y Hz E.
  - exists t. done.
  - simpl in Hz. apply andb_true_iff in Hz as [_ Hz].
    rewrite sub_eq in E by done.
    destruct (match_here false r t) as [rest|] eqn:Hm.
    + simpl in E. injection E as <- E.
      rewrite N.eqb_refl in Hz. destruct z as [|e z]; [done|].
      simpl in E. injection E as <- _. simpl in Hz.
      by rewrite N.eqb_refl in Hz.
    + destruct t as [|c t]; [done|]. simpl in E. injection E as -> E.
      destruct (IH _ _ _ Hz E) as (t' & -> & E').
      exists t'. done.
Qed.

Variable r' : regex.
Hypothesis Hapart : apart r' repl = true.

Lemma apart_never_empty : never_empty r' = true.
Proof. unfold apart in Hapart. by destruct r' as [|[]]. Qed.

Lemma apart_inside k y :
  (k < length repl)%nat -> match_here false r' (drop k repl ++ y) = None.
Proof.
  intros Hk. apply dead_sound. unfold apart in Hapart.
  destruct r' as [|[i| |] r'']; try done.
  apply andb_true_iff in Hapart as [Hd _].
  rewrite forallb_forall in Hd. apply Hd. apply in_seq. lia.
Qed.

(** A match in the substituted text that starts on a kept character is a
    match of the original text. *)
Lemma apart_transfer c t :
  is_Some (match_here false r' (c :: sub false r repl t)) ->
  is_Some (match_here false r' (c :: t)).
Proof.
  intros [rest Hm]. unfold apart in Hapart.
  destruct r' as [|[i| |] r'']; try done.
  apply andb_true_iff in Hapart as [_ Hs].
  destruct (match_here_sound _ _ _ _ Hm) as (m & E & Hl).
  inversion Hl as [|? ? c' m' Hc Hl'| |]; subst.
  simpl in E. injection E as <- E.
  pose proof (shielded_sound _ _ _ _ _ Hl' false false Hs (fun x => x)) as Hg.
  destruct (sub_align _ _ _ _ Hg E) as (t' & -> & _).
  apply (match_here_complete _ _ (c :: m') Hl t').
Qed.

(** Where [r] does not match a place of [s], [r'] does not either: then
    no place of the substituted text matches [r']. *)
Lemma sub_clean : forall s,
  (forall i, match_here false r (drop i s) = None ->
             match_here false r' (drop i s) = None) ->
  forall i, match_here false r' (drop i (sub false r repl s)) = None.
Proof.
  induction s as [s IH] using (induction_ltof1 _ (@length N)).
  unfold ltof in IH. intros H i. rewrite sub_eq by done.
  destruct (match_here false r s) as [rest|] eqn:Hm.
  - destruct (match_here_sound _ _ _ _ Hm) as (m & E & _).
    pose proof (match_here_shorter _ _ _ _ Hr Hm) as Hlt.
    destruct (decide (i < length repl)%nat) as [Hi|Hi].
    + rewrite drop_app_le by lia. by apply apart_inside.
    + rewrite drop_app_ge by lia. apply IH; [done|].
      intros j. specialize (H (length m + j)%nat).
      rewrite E, <- drop_drop, drop_app_length in H. exact H.
  - destruct s as [|c s].
    + rewrite drop_nil. apply match_here_nil, apart_never_empty.
    + destruct i as [|i]; simpl.
      * destruct (match_here false r' (c :: sub false r repl s)) eqn:Hm'; [|done].
        destruct (apart_transfer c s) as [x Hx]; [by rewrite Hm'|].
        specialize (H 0%nat Hm). simpl in H. congruence.
      * apply IH; [simpl; lia|]. intros j. apply (H (S j)).
Qed.
End Clean.

Lemma apart_shape r' (repl : text) :
  apart r' repl = true ->
  never_empty r' = true /\ exists f g tl, repl = f :: g :: tl.
Proof.
  unfold apart. destruct r' as [|[i| |] r'']; try done.
  destruct repl as [|f [|g tl]]; try done. eauto 6.
Qed.

(** After a substitution of [repl] for [r], a pattern apart from [repl]
    that had no match left, or is [r] itself, has no match. *)
Lemma sub_settles r r' (repl : text) s :
  never_empty r = true -> apart r' repl = true ->
  r' = r \/ search false r' s = None ->
  search false r' (sub false r repl s) = None.
Proof.
  intros Hr Ha Hs. destruct (apart_shape _ _ Ha) as (Hr' & f & g & tl & ->).
  apply search_None_iff; [done|].
  apply sub_clean; [done..|].
  intros i Hi. destruct Hs as [->|Hs]; [done|].
  by apply search_None_iff.
Qed.

Lemma substitute_all_settles : forall todo seen s,
  (forall p, In p seen -> search false (fst p) s = None) ->
  (forall p q, In p (seen ++ todo) -> In q todo ->
               apart (fst p) (snd q) = true) ->
  forall p, In p (seen ++ todo) ->
            search false (fst p) (substitute_all todo s) = None.
Proof.
  induction todo as [|q todo IH]; intros seen s Hseen Hap p Hp; simpl.
  - rewrite app_nil_r in Hp. by apply Hseen.
  - assert (never_empty (fst q) = true) as Hq.
    { apply (apart_shape _ (snd q)), Hap; [apply in_app_iff|]; simpl; auto. }
    apply (IH (seen ++ [q])).
    + intros p' Hp'. apply in_app_iff in Hp' as [Hp'|[<-|[]]].
      * apply sub_settles; [done| |right; by apply Hseen].
        apply Hap; [apply in_app_iff|]; simpl; auto.
      * apply sub_settles; [done| |by left].
        apply Hap; [apply in_app_iff|]; simpl; auto.
    + intros p' q' Hp' Hq'. apply Hap; [|simpl; auto].
      rewrite <- app_assoc in Hp'. exact Hp'.
    + rewrite <- app_assoc. exact Hp.
Qed.

Lemma substitute_all_fixed : forall crs s,
  (forall p, In p crs -> never_empty (fst p) = true) ->
  (forall p, In p crs -> search false (fst p) s = None) ->
  substitute_all crs s = s.
Proof.
  induction crs as [|q crs IH]; intros s Hne Hs; simpl; [done|].
  rewrite sub_no_match; [|apply Hne|apply Hs]; simpl; auto.
  apply IH; intros; [apply Hne|apply Hs]; simpl; auto.
Qed.

(** A settled table is idempotent. *)
Lemma substitute_all_idempotent crs s :
  settled crs = true ->
  substitute_all crs (substitute_all crs s) = substitute_all crs s.
Proof.
  intros H. unfold settled in H. rewrite forallb_forall in H.
  assert (forall p q, In p crs -> In q crs -> apart (fst p) (snd q) = true) as Hap.
  { intros p q Hp Hq. specialize (H p Hp). rewrite forallb_forall in H. auto. }
  apply substitute_all_fixed.
  - intros p Hp. apply (apart_shape _ (snd p)). by apply Hap.
  - intros p Hp. apply (substitute_all_settles crs [] s); simpl; auto.
    intros ? [].
Qed.

(** ** The replacement loop *)

Lemma compile_rule_Some rule r (repl : text) :
  compile_rule rule = Some (r, repl) ->
  re_compile (fst rule) = Compiled r /\ plain_template (snd rule) = true /\
  repl = cps (snd rule) /\ never_empty r = true.
Proof.
  unfold compile_rule. destruct (re_compile (fst rule)) as [r0| |] eqn:Hc; try done.
  destruct (plain_template (snd rule)); [|done]. intros [= <- <-].
  repeat split. unfold re_compile in Hc.
  destruct (build _) as [r1| |]; try done.
  destruct (never_empty r1) eqn:E; by simplify_eq.
Qed.

Lemma compile_rules_cons rule rules crs :
  compile_rules (rule :: rules) = Some crs ->
  exists cr crs', crs = cr :: crs' /\ compile_rule rule = Some cr /\
                  compile_rules rules = Some crs'.
Proof.
  simpl. destruct (compile_rule rule) as [cr|]; [|done].
  destruct (compile_rules rules) as [crs'|]; [|done].
  intros [= <-]. eauto.
Qed.

(** One turn of the loop on a rule that compiles. *)
Lemma replace_loop_step sh old_pattern new_pattern rules r content changes :
  re_compile old_pattern = Compiled r ->
  plain_template new_pattern = true ->
  replace_loop sh ((old_pattern, new_pattern) :: rules) content changes =
  match findall false r content with
  | [] => replace_loop sh rules content changes
  | m0 :: _ =>
      replace_loop sh rules (sub false r (cps new_pattern) content)
        (changes ++ [match sh with
                     | FirstMatch => {| shown := m0; new := new_pattern |}
                     | PatternText =>
                         {| shown := cps old_pattern; new := new_pattern |}
                     end])
  end.
Proof.
  intros Hc Hp. simpl. unfold re_findall, re_sub, compile_or_raise.
  rewrite Hc, Hp. by destruct (findall false r content).
Qed.

Lemma substitute_all_cons cr crs s :
  substitute_all (cr :: crs) s
  = substitute_all crs (sub false (fst cr) (snd cr) s).
Proof. reflexivity. Qed.

(** The loop returns the text after all substitutions. *)
Lemma replace_loop_content sh : forall rules crs content changes,
  compile_rules rules = Some crs ->
  exists changes',
    replace_loop sh rules content changes
    = Ok (substitute_all crs content, changes').
Proof.
  induction rules as [|[old_pattern new_pattern] rules IH];
    intros crs content changes Hc.
  - injection Hc as <-. simpl. eauto.
  - apply compile_rules_cons in Hc as ([r repl] & crs' & -> & Hr & Hc).
    apply compile_rule_Some in Hr as (Hr & Hp & -> & Hne). simpl in Hr, Hp.
    rewrite (replace_loop_step _ _ _ _ r) by done.
    rewrite substitute_all_cons. cbn [fst snd].
    destruct (findall false r content) as [|m0 ms] eqn:Hf.
    + apply findall_nil in Hf; [|done]. rewrite sub_no_match by done.
      by apply IH.
    + by apply IH.
Qed.

(** On a text where no pattern matches, the loop changes nothing and
    records nothing. *)
Lemma replace_loop_fixed sh : forall rules crs content changes,
  compile_rules rules = Some crs ->
  (forall p, In p crs -> search false (fst p) content = None) ->
  replace_loop sh rules content changes = Ok (content, changes).
Proof.
  induction rules as [|[old_pattern new_pattern] rules IH];
    intros crs content changes Hc Hs.
  - done.
  - apply compile_rules_cons in Hc as ([r repl] & crs' & -> & Hr & Hc).
    apply compile_rule_Some in Hr as (Hr & Hp & -> & Hne). simpl in Hr, Hp.
    rewrite (replace_loop_step _ _ _ _ r) by done.
    assert (findall false r content = []) as ->.
    { apply findall_nil; [done|]. apply (Hs (r, cps new_pattern)). by left. }
    eapply IH; [done|]. intros p Hp'. apply Hs. by right.
Qed.

(** ** Paths *)

Lemma string_app_cons a s1 s2 : String a s1 +:+ s2 = String a (s1 +:+ s2).
Proof. reflexivity. Qed.

Lemma string_app_nil s : EmptyString +:+ s = s.
Proof. reflexivity. Qed.

Lemma string_take_drop n : forall s, string_take n s +:+ string_drop n s = s.
Proof.
  induction n as [|n IH]; intros [|a s]; simpl; try done.
  by rewrite string_app_cons, IH.
Qed.

Lemma string_drop_length n : forall s,
  String.length (string_drop n s) = (String.length s - n)%nat.
Proof. induction n as [|n IH]; intros [|a s]; simpl; try done. Qed.

Lemma string_mem_app c s1 s2 :
  string_mem c (s1 +:+ s2) = string_mem c s1 || string_mem c s2.
Proof.
  induction s1 as [|a s1 IH]; [done|].
  rewrite string_app_cons. simpl. by rewrite IH, orb_assoc.
Qed.

Lemma string_mem_drop c n : forall s,
  string_mem c s = false -> string_mem c (string_drop n s) = false.
Proof.
  induction n as [|n IH]; intros [|a s]; simpl; try done.
  intros H. apply orb_false_iff in H as [_ H]. by apply IH.
Qed.

Lemma string_length_app s1 s2 :
  String.length (s1 +:+ s2) = (String.length s1 + String.length s2)%nat.
Proof.
  induction s1 as [|a s1 IH]; [done|].
  rewrite string_app_cons. simpl. by rewrite IH.
Qed.

(** [rfind] gives a place where the character stands, and it is the last. *)
Lemma rfind_Some c : forall s i,
  rfind c s = Some i ->
  exists rest, string_drop i s = String c rest /\ rfind c rest = None.
Proof.
  induction s as [|a s IH]; intros i; simpl; [done|].
  destruct (rfind c s) as [j|] eqn:Hj.
  - intros [= <-]. simpl. by apply IH.
  - destruct (Ascii.eqb a c) eqn:Ha; [|done]. intros [= <-].
    apply Ascii.eqb_eq in Ha as ->. simpl. eauto.
Qed.

Lemma suffix_of_cases nm :
  suffix_of nm = EmptyString \/
  exists i rest, suffix_of nm = String "." rest /\ rfind "." rest = None /\
                 suffix_of nm = string_drop i nm.
Proof.
  unfold suffix_of. destruct (rfind "." nm) as [i|] eqn:Hi; [|by left].
  destruct ((0 <? i) && (i <? String.length nm - 1)); [|by left].
  right. destruct (rfind_Some _ _ _ Hi) as (rest & Hd & Hr).
  exists i, rest. split; [exact Hd | split; [exact Hr | reflexivity]].
Qed.

(** Taking the suffix off and putting a longer one gives the name with the
    addition at its end. *)
Lemma stem_suffix nm :
  string_take (String.length nm - String.length (suffix_of nm)) nm
  +:+ suffix_of nm = nm.
Proof.
  destruct (suffix_of_cases nm) as [->|(i & rest & Hs & _ & Hd)].
  - simpl. rewrite Nat.sub_0_r.
    rewrite <- (string_take_drop (String.length nm) nm) at 3.
    f_equal. clear. induction nm as [|a nm IH]; simpl; [done|].
    destruct nm; simpl in *; done.
  - rewrite Hd at 1. rewrite string_drop_length.
    destruct (decide (i <= String.length nm)%nat) as [Hi|Hi].
    + replace (String.length nm - (String.length nm - i))%nat with i by lia.
      rewrite Hd. apply string_take_drop.
    + assert (string_drop i nm = EmptyString) as E.
      { pose proof (string_drop_length i nm) as Hl.
        destruct (string_drop i nm); [done|]. simpl in Hl. lia. }
      rewrite Hd, E in Hs. done.
Qed.

Lemma string_app_assoc s1 s2 s3 : (s1 +:+ s2) +:+ s3 = s1 +:+ (s2 +:+ s3).
Proof.
  induction s1 as [|a s1 IH]; [done|]. by rewrite !string_app_cons, IH.
Qed.

Lemma valid_name_inv nm :
  valid_name nm = true -> nm <> EmptyString /\ string_mem "/" nm = false.
Proof.
  unfold valid_name. intros H. apply andb_true_iff in H as [H1 H2].
  apply negb_true_iff in H1, H2. by apply String.eqb_neq in H1.
Qed.

(** [backup_file] computes [bak p], without an exception. *)
Lemma with_suffix_bak p :
  valid_name (path_name p) = true ->
  with_suffix p (path_suffix p +:+ ".bak") = Ok (bak p).
Proof.
  intros Hv. apply valid_name_inv in Hv as [Hne Hsep].
  unfold with_suffix, path_suffix, bak.
  set (nm := path_name p) in *.
  pose proof (stem_suffix nm) as Hstem.
  destruct (suffix_of_cases nm) as [E|(i & rest & E & _ & Hd)].
  - rewrite E in *. rewrite string_app_nil. simpl.
    apply String.eqb_neq in Hne. by rewrite Hne.
  - assert (string_mem "/" (suffix_of nm +:+ ".bak") = false) as ->.
    { rewrite string_mem_app, Hd, string_mem_drop by done. done. }
    rewrite E in *. rewrite string_app_cons. simpl.
    assert ((rest +:+ ".bak" =? EmptyString)%string = false) as ->.
    { apply String.eqb_neq. intros H.
      apply (f_equal String.length) in H.
      rewrite string_length_app in H. simpl in H. lia. }
    simpl. apply String.eqb_neq in Hne. rewrite Hne.
    assert (String.prefix EmptyString (rest +:+ ".bak") = true) as ->
      by (by destruct (rest +:+ ".bak")).
    simpl. do 3 f_equal.
    transitivity
      ((string_take (String.length nm - String.length (String "." rest)) nm
        +:+ String "." rest) +:+ ".bak");
      [by rewrite string_app_assoc | by rewrite Hstem].
Qed.

Lemma bak_length p : length (bak p) = S (length (removelast p)).
Proof. unfold bak. rewrite length_app. simpl. lia. Qed.

Lemma path_name_app root rel :
  rel <> [] -> path_name (root ++ rel) = path_name rel.
Proof.
  intros H. unfold path_name. revert rel H.
  induction root as [|r root IH]; intros rel H; [done|].
  simpl. destruct (root ++ rel) eqn:E.
  - apply app_eq_nil in E as [_ ->]. done.
  - rewrite <- E. by apply IH.
Qed.

Lemma removelast_app_r (root rel : path) :
  rel <> [] -> removelast (root ++ rel) = root ++ removelast rel.
Proof. intros H. by apply removelast_app. Qed.

Lemma bak_app root rel : rel <> [] -> bak (root ++ rel) = root ++ bak rel.
Proof.
  intros H. unfold bak.
  by rewrite path_name_app, removelast_app_r, app_assoc.
Qed.

(** The backup of a path is another path. *)
Lemma bak_neq p : bak p <> p.
Proof.
  unfold bak, path_name. intros H.
  destruct (decide (p = [])) as [->|Hp]; [done|].
  rewrite (app_removelast_last EmptyString Hp) in H at 3.
  apply app_inj_tail in H as [_ H].
  apply (f_equal String.length) in H. rewrite string_length_app in H.
  simpl in H. lia.
Qed.

Lemma string_app_inv_tail u : forall s t, s +:+ u = t +:+ u -> s = t.
Proof.
  induction s as [|a s IH]; intros [|b t] H; try done.
  - apply (f_equal String.length) in H.
    rewrite string_app_nil, string_length_app in H. simpl in H. lia.
  - apply (f_equal String.length) in H.
    rewrite string_app_nil, string_length_app in H. simpl in H. lia.
  - rewrite !string_app_cons in H. injection H as -> H. f_equal. by apply IH.
Qed.

Lemma bak_inj p q : p <> [] -> q <> [] -> bak p = bak q -> p = q.
Proof.
  unfold bak, path_name. intros Hp Hq H.
  apply app_inj_tail in H as [H1 H2].
  rewrite (app_removelast_last EmptyString Hp),
          (app_removelast_last EmptyString Hq), H1.
  do 2 f_equal. by apply string_app_inv_tail in H2.
Qed.

(** ** The methods of [MigrationTool], run symbolically *)

Lemma tool_eta (t : MigrationTool) :
  {| root_path := root_path t; dry_run := dry_run t; no_backup := no_backup t;
     changes_made := changes_made t; warnings := warnings t |} = t.
Proof. by destruct t. Qed.

Lemma bind_run {S A B} (m : M S A) (f : A -> M S B) s :
  bind m f s =
  match m s with
  | (Ok a, s') => f a s'
  | (Raise e, s') => (Raise e, s')
  end.
Proof. reflexivity. Qed.

Lemma print_run l t w : Migrate.print l (t, w) = (Ok tt, (t, with_lines [l] w)).
Proof. reflexivity. Qed.

Lemma exists_run p t w :
  Migrate.exists_ p (t, w) = (Ok (bool_decide (is_Some (disk w !! p))), (t, w)).
Proof. reflexivity. Qed.

Lemma get_self_run t w : get_self (t, w) = (Ok t, (t, w)).
Proof. reflexivity. Qed.

Lemma open_write_run p content t w :
  Migrate.open_write p content (t, w) =
  match disk w !! p with
  | Some Directory => (Raise OSError, (t, w))
  | _ => (Ok tt, (t, {| disk := <[p := File content]> (disk w);
                        stdout := stdout w |}))
  end.
Proof. reflexivity. Qed.

Lemma copy2_run src dst n t w :
  disk w !! src = Some n -> n <> Directory -> disk w !! dst = None ->
  Migrate.copy2 src dst (t, w) =
  (Ok tt, (t, {| disk := <[dst := n]> (disk w); stdout := stdout w |})).
Proof.
  intros Hs Hn Hd. unfold Migrate.copy2. cbn [snd].
  rewrite Hs, Hd. by destruct n.
Qed.

Lemma with_lines_nil w : with_lines [] w = w.
Proof. destruct w. unfold with_lines. simpl. by rewrite app_nil_r. Qed.

Lemma with_lines_app l1 l2 w :
  with_lines l2 (with_lines l1 w) = with_lines (l1 ++ l2) w.
Proof. unfold with_lines. simpl. by rewrite app_assoc. Qed.

Lemma for_each_print {A} (f : A -> line) (l : list A) t w :
  for_each l (fun c => Migrate.print (f c)) (t, w)
  = (Ok tt, (t, with_lines (map f l) w)).
Proof.
  revert w. induction l as [|x l IH]; intros w.
  - by rewrite with_lines_nil.
  - cbn [for_each map]. rewrite bind_run, print_run, IH, with_lines_app. done.
Qed.

Lemma backup_file_eq p t w :
  valid_name (path_name p) = true ->
  is_Some (disk w !! bak p) \/ (exists c, disk w !! p = Some (File c)) ->
  backup_file p (t, w) =
  (Ok tt,
   (t, {| disk := if no_backup t || dry_run t then disk w
                  else match disk w !! bak p with
                       | Some _ => disk w
                       | None =>
                           match disk w !! p with
                           | Some n => <[bak p := n]> (disk w)
                           | None => disk w
                           end
                       end;
          stdout := stdout w ++ backup_lines t p (disk w) |})).
Proof.
  intros Hv Hd. unfold backup_file, backup_lines.
  rewrite bind_run, get_self_run.
  destruct (no_backup t) eqn:Hnb; cbn [orb negb andb].
  { rewrite andb_false_r, app_nil_r. by destruct w. }
  destruct (dry_run t) eqn:Hdry; cbn [orb negb andb].
  { rewrite app_nil_r. by destruct w. }
  rewrite bind_run, with_suffix_bak by done. cbn [lift_result].
  unfold ret at 1. rewrite bind_run, exists_run.
  destruct (disk w !! bak p) as [n|] eqn:Hb.
  - rewrite bool_decide_eq_true_2 by eauto. cbn [negb].
    rewrite bool_decide_eq_false_2 by done. rewrite app_nil_r. by destruct w.
  - rewrite bool_decide_eq_false_2 by (by intros [? ?]). cbn [negb].
    destruct Hd as [[x Hx]|[c Hc]]; [congruence|]. rewrite Hc.
    rewrite bind_run, (copy2_run _ _ (File c)), print_run by done.
    by rewrite bool_decide_eq_true_2.
Qed.

Lemma with_change_false p t : with_change false p t = t.
Proof. destruct t. unfold with_change. simpl. by rewrite app_nil_r. Qed.

Lemma with_warning_false p t : with_warning false p t = t.
Proof. destruct t. unfold with_warning. simpl. by rewrite app_nil_r. Qed.

Lemma changes_made_append_run p t w :
  changes_made_append p (t, w) = (Ok tt, (with_change true p t, w)).
Proof. reflexivity. Qed.

Lemma warnings_append_run p t w :
  warnings_append p (t, w) = (Ok tt, (with_warning true p t, w)).
Proof. reflexivity. Qed.

Lemma write_if_changed_eq p original content changes t w :
  valid_name (path_name p) = true ->
  disk w !! p = Some (File original) ->
  write_if_changed p original content changes (t, w) =
  (Ok tt,
   let changed := bool_decide (content ≠ original) in
   (with_change changed p t,
    {| disk := if changed then disk_written t p original content (disk w)
               else disk w;
       stdout := stdout w ++
                 (if changed then
                    backup_lines t p (disk w)
                    ++ Updated (length changes) :: map ChangeLine changes
                  else [NoChanges]) |})).
Proof.
  intros Hv Hp. unfold write_if_changed.
  rewrite bind_run, get_self_run.
  destruct (bool_decide (content ≠ original)) eqn:Hch; cbn zeta.
  - assert (forall w',
      (do _ <- print (Updated (length changes));
       do _ <- for_each changes (fun c => print (ChangeLine c));
       changes_made_append p) (t, w')
      = (Ok tt, (with_change true p t,
           with_lines (Updated (length changes) :: map ChangeLine changes) w')))
      as Htail.
    { intros w'. rewrite bind_run, print_run, bind_run, for_each_print.
      by rewrite changes_made_append_run, with_lines_app. }
    rewrite bind_run. unfold when, disk_written.
    destruct (dry_run t) eqn:Hdry; cbn [negb].
    + unfold ret at 1. rewrite Htail. unfold backup_lines. rewrite Hdry.
      cbn [negb andb]. unfold with_lines. by rewrite app_nil_l.
    + rewrite bind_run, backup_file_eq by eauto.
      rewrite Hdry, orb_false_r. rewrite open_write_run. cbn [disk stdout].
      assert ((if no_backup t then disk w
               else match disk w !! bak p with
                    | Some _ => disk w
                    | None =>
                        match disk w !! p with
                        | Some n => <[bak p:=n]> (disk w)
                        | None => disk w
                        end
                    end)
              = (if no_backup t then disk w
                 else match disk w !! bak p with
                      | Some _ => disk w
                      | None => <[bak p:=File original]> (disk w)
                      end)) as -> by (by rewrite Hp).
      assert ((if no_backup t then disk w
               else match disk w !! bak p with
                    | Some _ => disk w
                    | None => <[bak p:=File original]> (disk w)
                    end) !! p = Some (File original)) as ->.
      { destruct (no_backup t); [done|].
        destruct (disk w !! bak p); [done|].
        rewrite lookup_insert_ne by apply bak_neq. done. }
      rewrite Htail. unfold with_lines. cbn [disk stdout].
      by rewrite <- app_assoc.
  - rewrite print_run, with_change_false. done.
Qed.

Lemma open_read_run p t w :
  Migrate.open_read p (t, w) =
  match disk w !! p with
  | Some (File content) => (Ok content, (t, w))
  | Some Binary => (Raise ValueError, (t, w))
  | _ => (Raise OSError, (t, w))
  end.
Proof. reflexivity. Qed.

Lemma attempt_run {S A} (m : M S A) s :
  attempt m s = (Ok (fst (m s)), snd (m s)).
Proof. unfold attempt. by destruct (m s). Qed.

(** What follows the loop in both methods. *)
Lemma after_loop_eq flag p rel original content changes t w :
  valid_name (path_name p) = true ->
  disk w !! p = Some (File original) ->
  (do _ <- when flag (warnings_append p);
   write_if_changed p original content changes)
    (t, with_lines [Processing rel] w)
  = (Ok tt, migrated flag p rel original content changes (t, w)).
Proof.
  intros Hv Hp. rewrite bind_run. unfold when, migrated. cbn [fst snd].
  destruct flag.
  - rewrite warnings_append_run, write_if_changed_eq by done.
    cbn zeta. unfold with_lines. cbn [disk stdout].
    rewrite <- app_assoc. done.
  - unfold ret at 1. rewrite write_if_changed_eq by done.
    cbn zeta. unfold with_lines. cbn [disk stdout].
    rewrite <- app_assoc, with_warning_false. done.
Qed.

Lemma migrate_python_file_eq W G p rel t w :
  relative_to p (root_path t) = Ok rel ->
  valid_name (path_name p) = true ->
  migrate_python_file W G p (t, w) =
  match disk w !! p with
  | Some (File original) =>
      match replace_loop FirstMatch (PYTHON_REPLACEMENTS G) original [] with
      | Ok (content, changes) =>
          (Ok tt, migrated (mentions_ardupilot W content) p rel
                    original content changes (t, w))
      | Raise e => (Raise e, (t, with_lines [Processing rel] w))
      end
  | _ => (Ok tt, (t, with_lines [Processing rel; ErrorReading] w))
  end.
Proof.
  intros Hrel Hv. unfold migrate_python_file.
  rewrite bind_run, get_self_run, bind_run, Hrel. cbn [lift_result].
  unfold ret at 1. rewrite bind_run, print_run, bind_run, attempt_run.
  rewrite open_read_run. cbn [disk with_lines].
  destruct (disk w !! p) as [[original| |]|] eqn:Hp; cbn [fst snd];
    try (by rewrite print_run, with_lines_app).
  rewrite bind_run.
  destruct (replace_loop FirstMatch (PYTHON_REPLACEMENTS G) original [])
    as [[content changes]|e]; cbn [lift_result]; [|done].
  unfold ret at 1. by apply after_loop_eq.
Qed.

Lemma migrate_toml_file_eq G p rel t w :
  relative_to p (root_path t) = Ok rel ->
  valid_name (path_name p) = true ->
  migrate_toml_file G p (t, w) =
  match disk w !! p with
  | Some (File original) =>
      match replace_loop PatternText (TOML_REPLACEMENTS G) original [] with
      | Ok (content, changes) =>
          (Ok tt, migrated false p rel original content changes (t, w))
      | Raise e => (Raise e, (t, with_lines [Processing rel] w))
      end
  | _ => (Ok tt, (t, with_lines [Processing rel; ErrorReading] w))
  end.
Proof.
  intros Hrel Hv. unfold migrate_toml_file.
  rewrite bind_run, get_self_run, bind_run, Hrel. cbn [lift_result].
  unfold ret at 1. rewrite bind_run, print_run, bind_run, attempt_run.
  rewrite open_read_run. cbn [disk with_lines].
  destruct (disk w !! p) as [[original| |]|] eqn:Hp; cbn [fst snd];
    try (by rewrite print_run, with_lines_app).
  rewrite bind_run.
  destruct (replace_loop PatternText (TOML_REPLACEMENTS G) original [])
    as [[content changes]|e]; cbn [lift_result]; [|done].
  unfold ret at 1.
  rewrite <- (after_loop_eq false p rel original content changes t w) by done.
  rewrite bind_run. unfold when. done.
Qed.

(** ** A run, turn by turn *)

Lemma relative_to_app root rel : relative_to (root ++ rel) root = Ok rel.
Proof.
  induction root as [|r root IH]; simpl; [by destruct rel|].
  by rewrite String.eqb_refl.
Qed.

Lemma good_targets_inv rels :
  good_targets rels = true ->
  NoDup rels /\
  forall r, r ∈ rels ->
    r <> [] /\ valid_name (path_name r) = true /\ (bak r ∉ rels).
Proof.
  unfold good_targets. intros H. apply andb_true_iff in H as [H1 H2].
  apply bool_decide_eq_true in H2. split; [done|].
  intros r Hr. rewrite forallb_forall in H1.
  apply list_elem_of_In in Hr. specialize (H1 r Hr).
  apply andb_true_iff in H1 as [H1 H3]. apply andb_true_iff in H1 as [H1 H4].
  apply negb_true_iff, bool_decide_eq_false in H1, H3. done.
Qed.

Lemma process_python_eq W G fp s :
  Path fp <> [] -> valid_name (path_name (Path fp)) = true ->
  process (migrate_python_file W G) fp s = step W G (Python, fp) s.
Proof.
  intros Hne Hv. destruct s as [t w]. unfold process, step, joinpath.
  rewrite bind_run, get_self_run, bind_run, exists_run. cbn [fst snd loop_of].
  destruct (disk w !! (root_path t ++ Path fp)) as [n|] eqn:Hp.
  - rewrite bool_decide_eq_true_2 by eauto.
    rewrite (migrate_python_file_eq W G _ (Path fp));
      [|apply relative_to_app|by rewrite path_name_app].
    rewrite Hp. by destruct n.
  - rewrite bool_decide_eq_false_2 by (by intros [? ?]).
    by rewrite print_run.
Qed.

Lemma process_toml_eq W G fp s :
  Path fp <> [] -> valid_name (path_name (Path fp)) = true ->
  process (migrate_toml_file G) fp s = step W G (Toml, fp) s.
Proof.
  intros Hne Hv. destruct s as [t w]. unfold process, step, joinpath.
  rewrite bind_run, get_self_run, bind_run, exists_run. cbn [fst snd loop_of].
  destruct (disk w !! (root_path t ++ Path fp)) as [n|] eqn:Hp.
  - rewrite bool_decide_eq_true_2 by eauto.
    rewrite (migrate_toml_file_eq G _ (Path fp));
      [|apply relative_to_app|by rewrite path_name_app].
    rewrite Hp. by destruct n.
  - rewrite bool_decide_eq_false_2 by (by intros [? ?]).
    by rewrite print_run.
Qed.

Lemma for_each_ext {S A} (l : list A) (f g : A -> M S unit) s :
  (forall x s, x ∈ l -> f x s = g x s) -> for_each l f s = for_each l g s.
Proof.
  revert s. induction l as [|x l IH]; intros s H; [done|].
  cbn [for_each]. rewrite !bind_run, H by left.
  destruct (g x s) as [[[]|e] s']; [|done]. apply IH.
  intros y s'' Hy. apply H. by right.
Qed.

Lemma for_each_app {S A} (l1 l2 : list A) (f : A -> M S unit) s :
  for_each (l1 ++ l2) f s = (for_each l1 f ;; for_each l2 f) s.
Proof.
  revert s. induction l1 as [|x l1 IH]; intros s; [done|].
  cbn [for_each app]. rewrite !bind_run.
  destruct (f x s) as [[[]|e] s']; [|done]. by rewrite IH, bind_run.
Qed.

Lemma for_each_map {S A B} (h : A -> B) (l : list A) (f : B -> M S unit) s :
  for_each (map h l) f s = for_each l (fun x => f (h x)) s.
Proof.
  revert s. induction l as [|x l IH]; intros s; [done|].
  cbn [for_each map]. rewrite !bind_run.
  destruct (f (h x) s) as [[[]|e] s']; [|done]. apply IH.
Qed.

(** [run_migration] is the turns over the files, between the head line and
    the summary. *)
Lemma run_migration_eq W G s :
  good_targets (targets G) = true ->
  run_migration W G s =
  (do _ <- print (Mode (dry_run (fst s)) (no_backup (fst s)));
   do _ <- for_each (jobs G) (step W G);
   summary G) s.
Proof.
  intros Hg. apply good_targets_inv in Hg as [_ Hg].
  assert (forall k fp, (k, fp) ∈ jobs G ->
            Path fp <> [] /\ valid_name (path_name (Path fp)) = true) as Hj.
  { intros k fp Hin. destruct (Hg (Path fp)) as (? & ? & _); [|done].
    unfold targets. apply list_elem_of_fmap. by exists (k, fp). }
  destruct s as [t w]. unfold run_migration. cbn [fst].
  rewrite bind_run, get_self_run, (bind_run (print _)), print_run.
  rewrite (bind_run (print _)), print_run.
  generalize (t, with_lines [Mode (dry_run t) (no_backup t)] w). clear t w.
  intros s. unfold jobs in *.
  rewrite !bind_run, for_each_app, bind_run, !for_each_map.
  rewrite (for_each_ext _ _ (fun x => step W G (Python, x))).
  2:{ intros fp s' Hin. apply process_python_eq; eapply (Hj Python);
      apply elem_of_app; left; apply list_elem_of_fmap; eauto. }
  destruct (for_each (FILES_TO_MIGRATE_python G) _ _) as [[[]|e] s1]; [|done].
  rewrite bind_run, for_each_map.
  rewrite (for_each_ext _ _ (fun x => step W G (Toml, x))).
  2:{ intros fp s' Hin. apply (process_toml_eq W); eapply (Hj Toml);
      apply elem_of_app; right; apply list_elem_of_fmap; eauto. }
  done.
Qed.

(** ** What a turn does to the disk *)

Lemma disk_written_frame t p original content d q :
  q <> p -> q <> bak p -> disk_written t p original content d !! q = d !! q.
Proof.
  intros H1 H2. unfold disk_written. destruct (dry_run t); [done|].
  rewrite lookup_insert_ne by done. destruct (no_backup t); [done|].
  destruct (d !! bak p); [done|]. by rewrite lookup_insert_ne.
Qed.

Lemma disk_written_bak t p original content d :
  disk_written t p original content d !! bak p =
  match d !! bak p with
  | Some n => Some n
  | None => if dry_run t || no_backup t then None else Some (File original)
  end.
Proof.
  unfold disk_written. destruct (dry_run t); simpl.
  { by destruct (d !! bak p). }
  rewrite lookup_insert_ne by (intros E; by apply (bak_neq p)).
  destruct (no_backup t); [by destruct (d !! bak p)|].
  destruct (d !! bak p) eqn:E; [done|]. by rewrite lookup_insert_eq.
Qed.

Lemma disk_written_target t p original content d :
  dry_run t = false ->
  disk_written t p original content d !! p = Some (File content).
Proof. intros H. unfold disk_written. rewrite H. by rewrite lookup_insert_eq. Qed.

Lemma disk_written_dry t p original content d :
  dry_run t = true -> disk_written t p original content d = d.
Proof. intros H. unfold disk_written. by rewrite H. Qed.

Lemma indep_cons r rels :
  indep (r :: rels) ->
  indep rels /\ r <> [] /\ valid_name (path_name r) = true /\
  (r ∉ rels) /\ (bak r ∉ rels) /\ forall r', r' ∈ rels -> bak r' <> r.
Proof.
  intros [Hnd H]. apply NoDup_cons in Hnd as [Hr Hnd].
  destruct (H r) as (H1 & H2 & H3); [by left|].
  split.
  { split; [done|]. intros r' Hr'.
    destruct (H r') as (? & ? & Hb); [by right|].
    split_and!; try done. intros Hin. apply Hb. by right. }
  split_and!; try done.
  - intros Hin. apply H3. by right.
  - intros r' Hr' E. destruct (H r') as (_ & _ & Hb); [by right|].
    apply Hb. rewrite E. by left.
Qed.

Lemma good_targets_indep rels : good_targets rels = true -> indep rels.
Proof. apply good_targets_inv. Qed.

(** The state after a turn, case by case. *)
Lemma step_cases W G j t w (P : result unit * state -> Prop) :
  let rel := Path (snd j) in
  let p := root_path t ++ rel in
  (disk w !! p = None ->
   P (Ok tt, (t, with_lines [FileNotFound (snd j)] w))) ->
  (forall n, disk w !! p = Some n -> (forall c, n <> File c) ->
   P (Ok tt, (t, with_lines [Processing rel; ErrorReading] w))) ->
  (forall c e, disk w !! p = Some (File c) -> loop_of G (fst j) c = Raise e ->
   P (Raise e, (t, with_lines [Processing rel] w))) ->
  (forall c c' chs, disk w !! p = Some (File c) ->
   loop_of G (fst j) c = Ok (c', chs) ->
   P (Ok tt, migrated (match fst j with
                       | Python => mentions_ardupilot W c'
                       | Toml => false
                       end) p rel c c' chs (t, w))) ->
  P (step W G j (t, w)).
Proof.
  intros rel p H1 H2 H3 H4. unfold step. cbn [fst snd]. fold rel. fold p.
  destruct (disk w !! p) as [[c| |]|] eqn:Hp.
  - destruct (loop_of G (fst j) c) as [[c' chs]|e] eqn:Hl.
    + by apply H4.
    + by apply (H3 c).
  - by apply (H2 Binary).
  - by apply (H2 Directory).
  - by apply H1.
Qed.

(** ** Computations that keep a relation *)

Section Preserves.
Variable R : state -> state -> Prop.
Hypothesis R_refl : forall s, R s s.
Hypothesis R_trans : forall s1 s2 s3, R s1 s2 -> R s2 s3 -> R s1 s3.

Lemma preserves_ret {A} (a : A) : preserves R (ret a).
Proof. intros s. apply R_refl. Qed.

Lemma preserves_raise {A} e : preserves R (raise (A:=A) e).
Proof. intros s. apply R_refl. Qed.

Lemma preserves_lift_result {A} (r : result A) : preserves R (lift_result r).
Proof. destruct r; [apply preserves_ret | apply preserves_raise]. Qed.

Lemma preserves_get_self : preserves R get_self.
Proof. intros s. apply R_refl. Qed.

Lemma preserves_exists p : preserves R (Migrate.exists_ p).
Proof. intros s. apply R_refl. Qed.

Lemma preserves_open_read p : preserves R (Migrate.open_read p).
Proof.
  intros [t w]. rewrite open_read_run.
  destruct (disk w !! p) as [[]|]; apply R_refl.
Qed.

Lemma preserves_bind {A B} (m : M state A) (f : A -> M state B) :
  preserves R m -> (forall a, preserves R (f a)) -> preserves R (bind m f).
Proof.
  intros Hm Hf s. rewrite bind_run. specialize (Hm s).
  destruct (m s) as [[a|e] s']; [|done].
  eapply R_trans; [exact Hm | apply Hf].
Qed.

Lemma preserves_attempt {A} (m : M state A) :
  preserves R m -> preserves R (attempt m).
Proof. intros Hm s. rewrite attempt_run. apply Hm. Qed.

Lemma preserves_when b m : preserves R m -> preserves R (when b m).
Proof. intros Hm. destruct b; [done | apply preserves_ret]. Qed.

Lemma preserves_for_each {A} (l : list A) (f : A -> M state unit) :
  (forall x, preserves R (f x)) -> preserves R (for_each l f).
Proof.
  intros Hf. induction l as [|x l IH]; [apply preserves_ret|].
  apply preserves_bind; [apply Hf | done].
Qed.
End Preserves.

Ltac preserve_step R_refl R_trans :=
  first
    [ apply preserves_bind; [exact R_trans | | intros ?]
    | apply preserves_for_each; [exact R_refl | exact R_trans | intros ?]
    | apply preserves_when; [exact R_refl |]
    | apply preserves_attempt
    | apply preserves_ret; exact R_refl
    | apply preserves_lift_result; exact R_refl
    | apply preserves_get_self; exact R_refl
    | apply preserves_exists; exact R_refl
    | apply preserves_open_read; exact R_refl
    | match goal with
      | |- preserves _ (if ?b then _ else _) => destruct b
      | |- preserves _ (match ?x with _ => _ end) => destruct x
      end ].

Lemma only_prints_refl s : only_prints s s.
Proof. split_and!; try done. exists []. by rewrite app_nil_r. Qed.

Lemma only_prints_trans s1 s2 s3 :
  only_prints s1 s2 -> only_prints s2 s3 -> only_prints s1 s3.
Proof.
  intros (H1 & H2 & l1 & H3) (H4 & H5 & l2 & H6).
  split_and!; try congruence. exists (l1 ++ l2).
  by rewrite H6, H3, app_assoc.
Qed.

Lemma only_prints_print l : preserves only_prints (Migrate.print l).
Proof. intros [t w]. split_and!; try done. by exists [l]. Qed.

(** The summary prints and does nothing else. *)
Lemma summary_only_prints G : preserves only_prints (summary G).
Proof.
  unfold summary.
  repeat first [ apply only_prints_print
               | preserve_step only_prints_refl only_prints_trans ].
Qed.

Lemma same_warnings_refl s : same_warnings s s.
Proof. done. Qed.

Lemma same_warnings_trans s1 s2 s3 :
  same_warnings s1 s2 -> same_warnings s2 s3 -> same_warnings s1 s3.
Proof. unfold same_warnings. congruence. Qed.

Lemma same_warnings_print l : preserves same_warnings (Migrate.print l).
Proof. intros [t w]. done. Qed.

Lemma same_warnings_open_write p c :
  preserves same_warnings (Migrate.open_write p c).
Proof.
  intros [t w]. rewrite open_write_run. by destruct (disk w !! p) as [[]|].
Qed.

Lemma same_warnings_copy2 src dst : preserves same_warnings (Migrate.copy2 src dst).
Proof.
  intros [t w]. unfold Migrate.copy2. cbn [snd].
  by destruct (disk w !! src) as [[]|].
Qed.

Lemma same_warnings_changes_made_append p :
  preserves same_warnings (changes_made_append p).
Proof. intros [t w]. done. Qed.

Ltac same_warnings_steps :=
  repeat first [ apply same_warnings_print
               | apply same_warnings_open_write
               | apply same_warnings_copy2
               | apply same_warnings_changes_made_append
               | preserve_step same_warnings_refl same_warnings_trans ].

Lemma same_warnings_backup_file p : preserves same_warnings (backup_file p).
Proof. unfold backup_file. same_warnings_steps. Qed.

Lemma same_warnings_write_if_changed p original content changes :
  preserves same_warnings (write_if_changed p original content changes).
Proof.
  unfold write_if_changed. same_warnings_steps.
Qed.

(** [migrate_toml_file] never touches the warnings, whatever its tables,
    its file and the way it ends. *)
Lemma same_warnings_migrate_toml_file G p :
  preserves same_warnings (migrate_toml_file G p).
Proof.
  unfold migrate_toml_file. same_warnings_steps.
Qed.

(** ** Turns over a list of files *)

Lemma migrated_frame flag p rel c c' chs t w q :
  q <> p -> q <> bak p ->
  disk (snd (migrated flag p rel c c' chs (t, w))) !! q = disk w !! q.
Proof.
  intros H1 H2. unfold migrated. cbn [fst snd disk].
  destruct (bool_decide (c' ≠ c)); [|done]. by apply disk_written_frame.
Qed.

Lemma migrated_dry flag p rel c c' chs t w :
  dry_run t = true -> disk (snd (migrated flag p rel c c' chs (t, w))) = disk w.
Proof.
  intros H. unfold migrated. cbn [fst snd disk].
  destruct (bool_decide (c' ≠ c)); [|done]. by apply disk_written_dry.
Qed.

Lemma tgt_inj root j j' : tgt root j = tgt root j' -> Path (snd j) = Path (snd j').
Proof. unfold tgt. apply app_inv_head. Qed.

Lemma bak_tgt root j :
  Path (snd j) <> [] -> bak (tgt root j) = root ++ bak (Path (snd j)).
Proof. intros H. unfold tgt. by apply bak_app. Qed.

(** In a list of independent files, a later file is neither an earlier one
    nor its backup. *)
Lemma later_target root j j' l :
  indep (map (fun j => Path (snd j)) (j :: l)) -> j' ∈ l ->
  tgt root j' <> tgt root j /\ tgt root j' <> bak (tgt root j).
Proof.
  intros Hi Hin. cbn [map] in Hi.
  apply indep_cons in Hi as (_ & Hne & _ & Hnotin & Hbak & _).
  assert (Path (snd j') ∈ map (fun j => Path (snd j)) l) as Hin'.
  { apply list_elem_of_fmap. eauto. }
  split.
  - intros E. apply tgt_inj in E. congruence.
  - rewrite bak_tgt by done. unfold tgt. intros E.
    apply app_inv_head in E. congruence.
Qed.

Lemma for_each_cons {S A} (x : A) (l : list A) (f : A -> M S unit) s :
  for_each (x :: l) f s =
  match f x s with
  | (Ok _, s') => for_each l f s'
  | (Raise e, s') => (Raise e, s')
  end.
Proof. reflexivity. Qed.

(** A turn keeps the settings of the tool, and the disk outside its file
    and the backup of its file. *)
Lemma step_settings W G j t w :
  root_path (fst (snd (step W G j (t, w)))) = root_path t /\
  dry_run (fst (snd (step W G j (t, w)))) = dry_run t /\
  no_backup (fst (snd (step W G j (t, w)))) = no_backup t.
Proof. apply step_cases; done. Qed.

Lemma step_frame W G j t w q :
  q <> tgt (root_path t) j -> q <> bak (tgt (root_path t) j) ->
  disk (snd (snd (step W G j (t, w)))) !! q = disk w !! q.
Proof.
  intros H1 H2. apply step_cases; try done.
  intros c c' chs _ _. cbn [snd]. by apply migrated_frame.
Qed.

Lemma step_dry W G j t w :
  dry_run t = true -> disk (snd (snd (step W G j (t, w)))) = disk w.
Proof.
  intros H. apply step_cases; try done.
  intros c c' chs _ _. cbn [snd]. by apply migrated_dry.
Qed.

(** A turn depends on the disk through its file only: two states with the
    same lists and the same file end the turn alike. *)
Lemma step_alike W G j t1 w1 t2 w2 :
  root_path t1 = root_path t2 ->
  changes_made t1 = changes_made t2 -> warnings t1 = warnings t2 ->
  disk w1 !! tgt (root_path t1) j = disk w2 !! tgt (root_path t1) j ->
  fst (step W G j (t1, w1)) = fst (step W G j (t2, w2)) /\
  changes_made (fst (snd (step W G j (t1, w1))))
  = changes_made (fst (snd (step W G j (t2, w2)))) /\
  warnings (fst (snd (step W G j (t1, w1))))
  = warnings (fst (snd (step W G j (t2, w2)))).
Proof.
  intros Hroot Hch Hwa Hd. unfold tgt in Hd. unfold step. cbn [fst snd].
  rewrite <- Hroot, <- Hd.
  destruct (disk w1 !! (root_path t1 ++ Path (snd j))) as [[c| |]|]; try done.
  destruct (loop_of G (fst j) c) as [[c' chs]|e]; [|done].
  unfold migrated. cbn. by rewrite Hch, Hwa.
Qed.

(** A dry run and any other run that start from disks that agree on the
    files end alike, and make the same two lists; the dry run leaves its
    disk as it was. *)
Lemma steps_dry_live W G : forall l t1 w1 t2 w2,
  indep (map (fun j => Path (snd j)) l) ->
  root_path t1 = root_path t2 -> dry_run t1 = true ->
  changes_made t1 = changes_made t2 -> warnings t1 = warnings t2 ->
  (forall j, j ∈ l ->
     disk w1 !! tgt (root_path t1) j = disk w2 !! tgt (root_path t1) j) ->
  fst (for_each l (step W G) (t1, w1)) = fst (for_each l (step W G) (t2, w2)) /\
  changes_made (fst (snd (for_each l (step W G) (t1, w1))))
  = changes_made (fst (snd (for_each l (step W G) (t2, w2)))) /\
  warnings (fst (snd (for_each l (step W G) (t1, w1))))
  = warnings (fst (snd (for_each l (step W G) (t2, w2)))) /\
  disk (snd (snd (for_each l (step W G) (t1, w1)))) = disk w1.
Proof.
  induction l as [|j l IH]; intros t1 w1 t2 w2 Hi Hroot Hdry Hch Hwa Hd;
    [done|].
  rewrite !for_each_cons.
  assert (indep (map (fun j => Path (snd j)) l)) as Hi'
    by (cbn [map] in Hi; by destruct (indep_cons _ _ Hi)).
  destruct (step_alike W G j t1 w1 t2 w2) as (Hr & Hch' & Hwa'); try done.
  { apply Hd. by left. }
  destruct (step_settings W G j t1 w1) as (Hr1 & Hd1 & _).
  destruct (step_settings W G j t2 w2) as (Hr2 & _ & _).
  pose proof (step_dry W G j t1 w1 Hdry) as Hdisk1.
  assert (forall j', j' ∈ l ->
    disk (snd (snd (step W G j (t1, w1)))) !! tgt (root_path t1) j'
    = disk (snd (snd (step W G j (t2, w2)))) !! tgt (root_path t1) j') as Hd'.
  { intros j' Hj'.
    destruct (later_target (root_path t1) j j' l Hi Hj') as [N1 N2].
    rewrite !step_frame by (rewrite <- ?Hroot; done). apply Hd. by right. }
  destruct (step W G j (t1, w1)) as [r1 [t1' w1']].
  destruct (step W G j (t2, w2)) as [r2 [t2' w2']].
  cbn [fst snd] in *. subst r2. destruct r1 as [[]|e]; [|done].
  destruct (IH t1' w1' t2' w2') as (H1 & H2 & H3 & H4); try congruence.
  { intros j' Hj'. rewrite Hr1. by apply Hd'. }
  split_and!; congruence.
Qed.

(** ** A whole run *)

(** The tool and the disk at the end of a run are those at the end of the
    turns; the summary adds lines only. *)
Lemma run_migration_ends W G t w :
  good_targets (targets G) = true ->
  only_prints
    (snd (for_each (jobs G) (step W G)
            (t, with_lines [Mode (dry_run t) (no_backup t)] w)))
    (snd (run_migration W G (t, w)))
  /\ (fst (run_migration W G (t, w)) = Ok tt ->
      fst (for_each (jobs G) (step W G)
             (t, with_lines [Mode (dry_run t) (no_backup t)] w)) = Ok tt).
Proof.
  intros Hg. rewrite run_migration_eq by done. cbn [fst].
  rewrite bind_run, print_run, bind_run.
  destruct (for_each (jobs G) (step W G) _) as [[[]|e] s'] eqn:E; cbn [snd fst].
  - split; [apply summary_only_prints | done].
  - split; [apply only_prints_refl | done].
Qed.

Lemma the_module_good python toml :
  good_targets (targets (with_rules python toml)) = true.
Proof. vm_compute. reflexivity. Qed.

Lemma the_module_good' : good_targets (targets the_module) = true.
Proof. vm_compute. reflexivity. Qed.

(** C2. For every disk and all rule tables, the dry run of the script makes
    the same list of changed files and the same list of warnings as the
    live run, and leaves the disk as it was: no backup, no write. *)
Theorem dry_run_reports_as_live W python toml root no_bak w :
  let G := with_rules python toml in
  let dry := run_migration W G (new_tool root true no_bak, w) in
  let live := run_migration W G (new_tool root false no_bak, w) in
  changes_made (fst (snd dry)) = changes_made (fst (snd live)) /\
  warnings (fst (snd dry)) = warnings (fst (snd live)) /\
  disk (snd (snd dry)) = disk w.
Proof.
  intros G dry live. subst dry live.
  pose proof (the_module_good python toml) as Hg. fold G in Hg.
  destruct (run_migration_ends W G (new_tool root true no_bak) w Hg)
    as [(T1 & D1 & _) _].
  destruct (run_migration_ends W G (new_tool root false no_bak) w Hg)
    as [(T2 & D2 & _) _].
  rewrite T1, T2, D1.
  pose proof (good_targets_indep _ Hg) as Hi.
  destruct (steps_dry_live W G (jobs G)
              (new_tool root true no_bak)
              (with_lines [Mode true no_bak] w)
              (new_tool root false no_bak)
              (with_lines [Mode false no_bak] w)
              Hi eq_refl eq_refl eq_refl eq_refl (fun _ _ => eq_refl))
    as (_ & H1 & H2 & H3).
  split; [exact H1 | split; [exact H2 | exact H3]].
Qed.

(** ** Runs whose loops return *)

Lemma steps_settings W G : forall l t w,
  root_path (fst (snd (for_each l (step W G) (t, w)))) = root_path t /\
  dry_run (fst (snd (for_each l (step W G) (t, w)))) = dry_run t /\
  no_backup (fst (snd (for_each l (step W G) (t, w)))) = no_backup t.
Proof.
  induction l as [|j l IH]; intros t w; [done|].
  rewrite for_each_cons.
  destruct (step_settings W G j t w) as (H1 & H2 & H3).
  destruct (step W G j (t, w)) as [[[]|e] [t1 w1]]; [|done].
  cbn [fst snd] in *. destruct (IH t1 w1) as (? & ? & ?).
  split_and!; congruence.
Qed.

(** The turns leave alone what is neither one of their files nor the
    backup of one. *)
Lemma steps_frame W G q : forall l t w,
  (forall j, j ∈ l ->
     q <> tgt (root_path t) j /\ q <> bak (tgt (root_path t) j)) ->
  disk (snd (snd (for_each l (step W G) (t, w)))) !! q = disk w !! q.
Proof.
  induction l as [|j l IH]; intros t w H; [done|].
  rewrite for_each_cons.
  destruct (step_settings W G j t w) as (H1 & _ & _).
  destruct (H j) as [N1 N2]; [by left|].
  pose proof (step_frame W G j t w q N1 N2) as Hf.
  destruct (step W G j (t, w)) as [[[]|e] [t1 w1]]; [|done].
  cbn [fst snd] in *. rewrite IH, Hf; [done|].
  intros j' Hj'. rewrite H1. apply H. by right.
Qed.

Lemma step_outcome W G j t w :
  (forall k c, exists c' chs, loop_of G k c = Ok (c', chs)) ->
  let root := root_path t in
  exists t1 w1,
    step W G j (t, w) = (Ok tt, (t1, w1)) /\
    changes_made t1
    = changes_made t ++ (if changed G root (disk w) j then [tgt root j] else []) /\
    warnings t1
    = warnings t ++ (if flagged W G root (disk w) j then [tgt root j] else []) /\
    disk w1 !! tgt root j
    = (if dry_run t then disk w !! tgt root j
       else after_live G (fst j) (disk w !! tgt root j)) /\
    (disk w !! tgt root j = None -> FileNotFound (snd j) ∈ stdout w1) /\
    (is_Some (disk w !! tgt root j) -> Processing (Path (snd j)) ∈ stdout w1) /\
    exists ls, stdout w1 = stdout w ++ ls.
Proof.
  intros Hloop root. destruct j as [k fp].
  unfold step, changed, flagged, after_live, new_text, tgt.
  cbn [fst snd]. fold root.
  destruct (disk w !! (root ++ Path fp)) as [[c| |]|] eqn:Hp.
  - destruct (Hloop k c) as (c' & chs & Hl). rewrite Hl.
    eexists _, _. split; [reflexivity|]. unfold migrated. cbn [fst snd].
    cbn [changes_made warnings with_change with_warning disk stdout].
    split_and!.
    + done.
    + destruct k; [|done]. by rewrite Hl.
    + destruct (bool_decide (c' ≠ c)) eqn:Hc.
      * unfold disk_written. destruct (dry_run t); [done|].
        by rewrite lookup_insert_eq.
      * apply bool_decide_eq_false in Hc. apply dec_stable in Hc. subst c'.
        rewrite Hp. by destruct (dry_run t).
    + done.
    + intros _. apply elem_of_app. right. by left.
    + eauto.
  - eexists _, _. split; [reflexivity|]. cbn [with_lines disk stdout].
    rewrite !app_nil_r. split_and!; try done.
    + destruct k; cbn; by rewrite app_nil_r.
    + rewrite Hp. by destruct (dry_run t).
    + intros _. apply elem_of_app. right. by left.
    + eauto.
  - eexists _, _. split; [reflexivity|]. cbn [with_lines disk stdout].
    rewrite !app_nil_r. split_and!; try done.
    + destruct k; cbn; by rewrite app_nil_r.
    + rewrite Hp. by destruct (dry_run t).
    + intros _. apply elem_of_app. right. by left.
    + eauto.
  - eexists _, _. split; [reflexivity|]. cbn [with_lines disk stdout].
    rewrite !app_nil_r. split_and!; try done.
    + destruct k; cbn; by rewrite app_nil_r.
    + rewrite Hp. by destruct (dry_run t).
    + intros _. apply elem_of_app. right. by left.
    + eauto.
Qed.

(** In a list of independent files, an earlier file is neither a later one
    nor its backup. *)
Lemma earlier_target root j j' l :
  indep (map (fun j => Path (snd j)) (j :: l)) -> j' ∈ l ->
  tgt root j <> tgt root j' /\ tgt root j <> bak (tgt root j').
Proof.
  intros Hi Hin. cbn [map] in Hi.
  apply indep_cons in Hi as ([_ Hi] & _ & _ & Hnotin & _ & Hbak).
  assert (Path (snd j') ∈ map (fun j => Path (snd j)) l) as Hin'.
  { apply list_elem_of_fmap. eauto. }
  destruct (Hi _ Hin') as (Hne & _ & _).
  split.
  - intros E. apply tgt_inj in E. congruence.
  - rewrite bak_tgt by done. unfold tgt. intros E.
    apply app_inv_head in E. by apply (Hbak _ Hin').
Qed.

(** The outcome of the turns over independent files, when the loops
    return: each file is treated as if it were alone. *)
Lemma steps_outcome W G :
  (forall k c, exists c' chs, loop_of G k c = Ok (c', chs)) ->
  forall l t w,
  indep (map (fun j => Path (snd j)) l) ->
  let root := root_path t in
  exists t' w',
    for_each l (step W G) (t, w) = (Ok tt, (t', w')) /\
    changes_made t'
    = changes_made t ++ map (tgt root) (List.filter (changed G root (disk w)) l) /\
    warnings t'
    = warnings t ++ map (tgt root) (List.filter (flagged W G root (disk w)) l) /\
    (forall j, j ∈ l ->
       disk w' !! tgt root j
       = (if dry_run t then disk w !! tgt root j
          else after_live G (fst j) (disk w !! tgt root j))) /\
    (forall j, j ∈ l -> disk w !! tgt root j = None ->
       FileNotFound (snd j) ∈ stdout w') /\
    (forall j, j ∈ l -> is_Some (disk w !! tgt root j) ->
       Processing (Path (snd j)) ∈ stdout w') /\
    exists ls, stdout w' = stdout w ++ ls.
Proof.
  intros Hloop. induction l as [|j l IH]; intros t w Hi root.
  { exists t, w. cbn. rewrite !app_nil_r. split_and!; try done.
    - intros j Hj. by apply elem_of_nil in Hj.
    - intros j Hj. by apply elem_of_nil in Hj.
    - intros j Hj. by apply elem_of_nil in Hj.
    - exists []. by rewrite app_nil_r. }
  assert (indep (map (fun j => Path (snd j)) l)) as Hi'
    by (cbn [map] in Hi; by destruct (indep_cons _ _ Hi)).
  destruct (step_outcome W G j t w Hloop)
    as (t1 & w1 & Hs & Hc1 & Hw1 & Hd1 & Hm1 & Hp1 & ls1 & Hl1).
  fold root in Hc1, Hw1, Hd1, Hm1, Hp1.
  destruct (step_settings W G j t w) as (Hr1 & Hdry1 & _).
  pose proof (fun q => step_frame W G j t w q) as Hf1.
  rewrite Hs in Hr1, Hdry1, Hf1. cbn [fst snd] in Hr1, Hdry1, Hf1.
  fold root in Hr1, Hf1.
  destruct (IH t1 w1 Hi')
    as (t' & w' & Hs' & Hc' & Hw' & Hd' & Hm' & Hp' & ls' & Hl').
  rewrite Hr1 in Hc', Hw', Hd', Hm', Hp'.
  assert (forall j', j' ∈ l -> disk w1 !! tgt root j' = disk w !! tgt root j')
    as Hsame.
  { intros j' Hj'. destruct (later_target root j j' l Hi Hj'). by apply Hf1. }
  exists t', w'. rewrite for_each_cons, Hs. split; [exact Hs'|].
  split_and!.
  - rewrite Hc', Hc1. cbn [List.filter].
    rewrite (List.filter_ext_in (changed G root (disk w1))
               (changed G root (disk w))).
    2:{ intros j' Hj'. apply list_elem_of_In in Hj'. unfold changed.
        by rewrite Hsame. }
    destruct (changed G root (disk w) j); cbn [map];
      by rewrite <- app_assoc.
  - rewrite Hw', Hw1. cbn [List.filter].
    rewrite (List.filter_ext_in (flagged W G root (disk w1))
               (flagged W G root (disk w))).
    2:{ intros j' Hj'. apply list_elem_of_In in Hj'. unfold flagged.
        by rewrite Hsame. }
    destruct (flagged W G root (disk w) j); cbn [map];
      by rewrite <- app_assoc.
  - intros j' Hj'. apply elem_of_cons in Hj' as [->|Hj'].
    + rewrite <- Hd1.
      pose proof (steps_frame W G (tgt root j) l t1 w1) as Hfr.
      rewrite Hs' in Hfr. cbn [fst snd] in Hfr. apply Hfr.
      intros j' Hj'. rewrite Hr1. by apply (earlier_target root j j' l).
    + rewrite Hd', Hdry1 by done. by rewrite Hsame.
  - intros j' Hj' Hnone. apply elem_of_cons in Hj' as [->|Hj'].
    + rewrite Hl'. apply elem_of_app. left. by apply Hm1.
    + apply Hm'; [done|]. by rewrite Hsame.
  - intros j' Hj' Hsome. apply elem_of_cons in Hj' as [->|Hj'].
    + rewrite Hl'. apply elem_of_app. left. by apply Hp1.
    + apply Hp'; [done|]. by rewrite Hsame.
  - exists (ls1 ++ ls'). by rewrite Hl', Hl1, app_assoc.
Qed.

(** ** Computations that return *)

Lemma total_ret {A} (a : A) : total (ret a).
Proof. intros s. by exists a. Qed.

Lemma total_print l : total (Migrate.print l).
Proof. intros [t w]. by exists tt. Qed.

Lemma total_exists p : total (Migrate.exists_ p).
Proof. intros s. eexists. done. Qed.

Lemma total_bind {A B} (m : M state A) (f : A -> M state B) :
  total m -> (forall a, total (f a)) -> total (bind m f).
Proof.
  intros Hm Hf s. rewrite bind_run. destruct (Hm s) as [a Ha].
  destruct (m s) as [[a'|e] s']; [|done]. apply Hf.
Qed.

Lemma total_when b m : total m -> total (when b m).
Proof. intros Hm. destruct b; [done | apply total_ret]. Qed.

Lemma total_for_each {A} (l : list A) (f : A -> M state unit) :
  (forall x, x ∈ l -> total (f x)) -> total (for_each l f).
Proof.
  induction l as [|x l IH]; intros Hf; [apply total_ret|].
  apply total_bind; [apply Hf; by left|].
  intros _. apply IH. intros y Hy. apply Hf. by right.
Qed.

(** The summary returns when the warnings lie under the root. *)
Lemma summary_returns G t w :
  (forall q, q ∈ warnings t -> exists rel, q = root_path t ++ rel) ->
  fst (summary G (t, w)) = Ok tt.
Proof.
  intros Hw. unfold summary. rewrite bind_run, get_self_run.
  assert (total
    (do _ <- print (FilesModified (length (changes_made t)));
     do _ <- when (negb (bool_decide (warnings t = [])))
          (do _ <- print (ArduReferences (length (warnings t)));
           for_each (warnings t) (fun warning =>
             do rel <- lift_result (relative_to warning (root_path t));
             print (Reference rel)));
     do _ <- for_each (ARDUPILOT_FILES G) (fun ardupilot_file =>
          do there <- exists_ (joinpath (root_path t) ardupilot_file);
          when there (print (NeedsAttention ardupilot_file)));
     if dry_run t then print DryRunNote else print Complete)) as Ht.
  { apply total_bind; [apply total_print|]. intros _.
    apply total_bind.
    { apply total_when, total_bind; [apply total_print|]. intros _.
      apply total_for_each. intros q Hq. destruct (Hw q Hq) as [rel ->].
      rewrite relative_to_app. cbn [lift_result].
      apply total_bind; [apply total_ret|]. intros ?. apply total_print. }
    intros _. apply total_bind.
    { apply total_for_each. intros f _.
      apply total_bind; [apply total_exists|]. intros b.
      apply total_when, total_print. }
    intros _. destruct (dry_run t); apply total_print. }
  destruct (Ht (t, w)) as [[] H]. exact H.
Qed.

(** ** The tables of the script *)

Lemma compiled_python_eq :
  compile_rules (PYTHON_REPLACEMENTS the_module) = Some compiled_python.
Proof. vm_compute. reflexivity. Qed.

Lemma compiled_toml_eq :
  compile_rules (TOML_REPLACEMENTS the_module) = Some compiled_toml.
Proof. vm_compute. reflexivity. Qed.

Lemma compiled_python_settled : settled compiled_python = true.
Proof. vm_compute. reflexivity. Qed.

Lemma compiled_toml_settled : settled compiled_toml = true.
Proof. vm_compute. reflexivity. Qed.

(** The loops of the script return, with the text after all substitutions. *)
Lemma the_module_loop k c :
  exists chs, loop_of the_module k c = Ok (substitute_all (compiled_of k) c, chs).
Proof.
  destruct k; cbn [loop_of compiled_of].
  - apply replace_loop_content, compiled_python_eq.
  - apply replace_loop_content, compiled_toml_eq.
Qed.

Lemma the_module_loop_total k c :
  exists c' chs, loop_of the_module k c = Ok (c', chs).
Proof. destruct (the_module_loop k c) as [chs H]. eauto. Qed.

Lemma the_module_new_text k c :
  new_text the_module k c = substitute_all (compiled_of k) c.
Proof. unfold new_text. destruct (the_module_loop k c) as [chs ->]. done. Qed.

Lemma the_module_idempotent k c :
  new_text the_module k (new_text the_module k c) = new_text the_module k c.
Proof.
  rewrite !the_module_new_text. apply substitute_all_idempotent.
  destruct k; [apply compiled_python_settled | apply compiled_toml_settled].
Qed.

(** The outcome of a run from a fresh tool, with tables whose loops return:
    the run returns, and each file of the lists is treated as if it were
    alone. *)
Lemma run_outcome_of W G root dry no_bak w :
  (forall k c, exists c' chs, loop_of G k c = Ok (c', chs)) ->
  good_targets (targets G) = true ->
  let out := run_migration W G (new_tool root dry no_bak, w) in
  fst out = Ok tt /\
  changes_made (fst (snd out))
  = map (tgt root) (List.filter (changed G root (disk w))
                      (jobs G)) /\
  warnings (fst (snd out))
  = map (tgt root) (List.filter (flagged W G root (disk w))
                      (jobs G)) /\
  (forall j, j ∈ jobs G ->
     disk (snd (snd out)) !! tgt root j
     = (if dry then disk w !! tgt root j
        else after_live G (fst j) (disk w !! tgt root j))) /\
  (forall j, j ∈ jobs G -> disk w !! tgt root j = None ->
     FileNotFound (snd j) ∈ stdout (snd (snd out))) /\
  (forall j, j ∈ jobs G -> is_Some (disk w !! tgt root j) ->
     Processing (Path (snd j)) ∈ stdout (snd (snd out))).
Proof.
  intros Hloop Hg out. subst out.
  set (t0 := new_tool root dry no_bak).
  destruct (steps_outcome W G Hloop
              (jobs G) t0
              (with_lines [Mode (dry_run t0) (no_backup t0)] w))
    as (t' & w' & Hs & Hc & Hw & Hd & Hm & Hp & ls & Hl).
  { apply good_targets_indep, Hg. }
  cbn [root_path t0 new_tool changes_made warnings app dry_run] in Hc, Hw, Hd.
  destruct (steps_settings W G (jobs G) t0
              (with_lines [Mode (dry_run t0) (no_backup t0)] w))
    as (Hroot & _ & _).
  rewrite Hs in Hroot. cbn [fst snd root_path t0 new_tool] in Hroot.
  rewrite run_migration_eq by apply Hg.
  cbn [fst]. rewrite bind_run, print_run, bind_run, Hs.
  destruct (summary_only_prints G (t', w')) as (HT & HD & ls' & HL).
  cbn [fst snd] in HT, HD, HL.
  split_and!.
  - apply summary_returns. intros q Hq. rewrite Hw in Hq.
    apply list_elem_of_fmap in Hq as (j & -> & _). rewrite Hroot.
    by exists (Path (snd j)).
  - by rewrite HT.
  - by rewrite HT.
  - intros j Hj. rewrite HD. by apply Hd.
  - intros j Hj Hn. rewrite HL. apply elem_of_app. left. by apply Hm.
  - intros j Hj Hn. rewrite HL. apply elem_of_app. left. by apply Hp.
Qed.

(** The same, for the tables of the script. *)
Lemma run_outcome W root dry no_bak w :
  let out := run_migration W the_module (new_tool root dry no_bak, w) in
  fst out = Ok tt /\
  changes_made (fst (snd out))
  = map (tgt root) (List.filter (changed the_module root (disk w))
                      (jobs the_module)) /\
  warnings (fst (snd out))
  = map (tgt root) (List.filter (flagged W the_module root (disk w))
                      (jobs the_module)) /\
  (forall j, j ∈ jobs the_module ->
     disk (snd (snd out)) !! tgt root j
     = (if dry then disk w !! tgt root j
        else after_live the_module (fst j) (disk w !! tgt root j))) /\
  (forall j, j ∈ jobs the_module -> disk w !! tgt root j = None ->
     FileNotFound (snd j) ∈ stdout (snd (snd out))) /\
  (forall j, j ∈ jobs the_module -> is_Some (disk w !! tgt root j) ->
     Processing (Path (snd j)) ∈ stdout (snd (snd out))).
Proof.
  exact (run_outcome_of W the_module root dry no_bak w
           the_module_loop_total the_module_good').
Qed.

Lemma substitute_all_no_match crs s p :
  settled crs = true -> In p crs ->
  search false (fst p) (substitute_all crs s) = None.
Proof.
  intros H Hp. unfold settled in H. rewrite forallb_forall in H.
  apply (substitute_all_settles crs [] s); simpl; auto.
  - intros ? [].
  - intros p' q Hp' Hq. specialize (H p' Hp'). rewrite forallb_forall in H. auto.
Qed.

Lemma filter_none {A} (f : A -> bool) (l : list A) :
  (forall x, x ∈ l -> f x = false) -> List.filter f l = [].
Proof.
  induction l as [|x l IH]; intros H; [done|]. cbn [List.filter].
  rewrite H by left. apply IH. intros y Hy. apply H. by right.
Qed.

Lemma NoDup_map_inj {A B} (f : A -> B) (l : list A) x y :
  NoDup (map f l) -> x ∈ l -> y ∈ l -> f x = f y -> x = y.
Proof.
  induction l as [|a l IH]; intros Hnd Hx Hy E.
  - by apply elem_of_nil in Hx.
  - cbn [map] in Hnd. apply NoDup_cons in Hnd as [Ha Hnd].
    apply elem_of_cons in Hx as [->|Hx]; apply elem_of_cons in Hy as [->|Hy];
      try done.
    + exfalso. apply Ha. rewrite E. apply list_elem_of_fmap. eauto.
    + exfalso. apply Ha. rewrite <- E. apply list_elem_of_fmap. eauto.
    + by apply IH.
Qed.

Lemma jobs_path_inj G j j' :
  good_targets (targets G) = true -> j ∈ jobs G -> j' ∈ jobs G ->
  Path (snd j) = Path (snd j') -> j = j'.
Proof.
  intros Hg Hj Hj' E. apply good_targets_inv in Hg as [Hnd _].
  by apply (NoDup_map_inj (fun j => Path (snd j)) (jobs G)).
Qed.

(** C3. Applying the rule table of the Python files, or the one of the TOML
    file, to a text already treated gives that text again and records no
    change; and a run over a tree that a live run has migrated reports no
    changed file. *)
Theorem migration_idempotent W root no_bak1 dry2 no_bak2 w c :
  (exists c1 chs1,
     replace_loop FirstMatch (PYTHON_REPLACEMENTS the_module) c [] = Ok (c1, chs1)
     /\ replace_loop FirstMatch (PYTHON_REPLACEMENTS the_module) c1 []
        = Ok (c1, [])) /\
  (exists c1 chs1,
     replace_loop PatternText (TOML_REPLACEMENTS the_module) c [] = Ok (c1, chs1)
     /\ replace_loop PatternText (TOML_REPLACEMENTS the_module) c1 []
        = Ok (c1, [])) /\
  let migrated_tree :=
    snd (snd (run_migration W the_module (new_tool root false no_bak1, w))) in
  changes_made
    (fst (snd (run_migration W the_module
                 (new_tool root dry2 no_bak2, migrated_tree)))) = [].
Proof.
  split_and!.
  - destruct (the_module_loop Python c) as [chs H]. cbn [loop_of compiled_of] in H.
    eexists _, _. split; [exact H|].
    eapply replace_loop_fixed; [apply compiled_python_eq|].
    intros p Hp. by apply substitute_all_no_match, Hp; apply compiled_python_settled.
  - destruct (the_module_loop Toml c) as [chs H]. cbn [loop_of compiled_of] in H.
    eexists _, _. split; [exact H|].
    eapply replace_loop_fixed; [apply compiled_toml_eq|].
    intros p Hp. by apply substitute_all_no_match, Hp; apply compiled_toml_settled.
  - intros tree.
    destruct (run_outcome W root false no_bak1 w) as (_ & _ & _ & Hd & _).
    fold tree in Hd. cbn [fst snd] in Hd.
    destruct (run_outcome W root dry2 no_bak2 tree) as (_ & -> & _).
    rewrite filter_none; [done|].
    intros j Hj. unfold changed. rewrite Hd by done. unfold after_live.
    destruct (disk w !! tgt root j) as [[c0| |]|]; try done.
    apply bool_decide_eq_false. intros H. apply H.
    apply the_module_idempotent.
Qed.

Lemma jobs_python G fp :
  In fp (FILES_TO_MIGRATE_python G) -> (Python, fp) ∈ jobs G.
Proof.
  intros H. unfold jobs. apply elem_of_app. left.
  apply list_elem_of_fmap. exists fp. split; [done|]. by apply list_elem_of_In.
Qed.

Lemma jobs_toml G fp :
  In fp (FILES_TO_MIGRATE_toml G) -> (Toml, fp) ∈ jobs G.
Proof.
  intros H. unfold jobs. apply elem_of_app. right.
  apply list_elem_of_fmap. exists fp. split; [done|]. by apply list_elem_of_In.
Qed.

Lemma jobs_inv G k fp :
  (k, fp) ∈ jobs G ->
  match k with
  | Python => In fp (FILES_TO_MIGRATE_python G)
  | Toml => In fp (FILES_TO_MIGRATE_toml G)
  end.
Proof.
  unfold jobs. intros H. apply elem_of_app in H as [H|H];
    apply list_elem_of_fmap in H as (fp' & [= -> ->] & H);
    by apply list_elem_of_In.
Qed.

(** A file of the lists is in a list filtered from the jobs exactly when
    its job passes the filter. *)
Lemma in_filtered G root (f : kind * string -> bool) j :
  good_targets (targets G) = true -> j ∈ jobs G ->
  tgt root j ∈ map (tgt root) (List.filter f (jobs G)) <-> f j = true.
Proof.
  intros Hg Hj. split.
  - intros H. apply list_elem_of_fmap in H as (j' & E & Hj').
    apply list_elem_of_In, filter_In in Hj' as [Hj' Hf].
    apply list_elem_of_In in Hj'. apply tgt_inj in E.
    by rewrite (jobs_path_inj G j j' Hg Hj Hj' E).
  - intros Hf. apply list_elem_of_fmap. exists j. split; [done|].
    apply list_elem_of_In, filter_In. split; [by apply list_elem_of_In | done].
Qed.

(** What a run from a fresh tool does with one file of its lists, with
    tables whose loops return. *)
Lemma file_outcome_of W G root dry no_bak w :
  (forall k c, exists c' chs, loop_of G k c = Ok (c', chs)) ->
  good_targets (targets G) = true ->
  let out := run_migration W G (new_tool root dry no_bak, w) in
  fst out = Ok tt /\
  (forall k fp, (k, fp) ∈ jobs G -> disk w !! joinpath root fp = None ->
     FileNotFound fp ∈ stdout (snd (snd out))) /\
  forall k fp' c,
    (k, fp') ∈ jobs G ->
    disk w !! joinpath root fp' = Some (File c) ->
    exists c' chs,
      loop_of G k c = Ok (c', chs) /\
      Processing (Path fp') ∈ stdout (snd (snd out)) /\
      (joinpath root fp' ∈ changes_made (fst (snd out)) <-> c' <> c) /\
      (joinpath root fp' ∈ warnings (fst (snd out))
       <-> k = Python /\ mentions_ardupilot W c' = true) /\
      disk (snd (snd out)) !! joinpath root fp'
      = Some (File (if dry then c else c')).
Proof.
  intros Hloop Hg out.
  destruct (run_outcome_of W G root dry no_bak w Hloop Hg)
    as (Hr & Hc & Hw & Hd & Hm & Hp).
  fold out in Hr, Hc, Hw, Hd, Hm, Hp.
  split; [exact Hr|]. split.
  { intros k fp Hj Hn. exact (Hm (k, fp) Hj Hn). }
  intros k fp' c Hj Hfile.
  destruct (Hloop k c) as (c' & chs & Hl).
  assert (new_text G k c = c') as Hnew by (unfold new_text; by rewrite Hl).
  exists c', chs. split; [exact Hl|].
  pose proof (Hp (k, fp') Hj) as Hp1.
  pose proof (Hd (k, fp') Hj) as Hd1.
  pose proof (in_filtered G root (changed G root (disk w)) (k, fp') Hg Hj) as Fc.
  pose proof (in_filtered G root (flagged W G root (disk w)) (k, fp') Hg Hj)
    as Ff.
  rewrite <- Hc in Fc. rewrite <- Hw in Ff.
  unfold changed in Fc. unfold flagged in Ff.
  unfold tgt in Hp1, Hd1, Fc, Ff. cbn [fst snd] in Hp1, Hd1, Fc, Ff.
  fold (joinpath root fp') in Hp1, Hd1, Fc, Ff.
  rewrite Hfile in Hp1, Hd1, Fc, Ff. cbn [after_live] in Hd1.
  rewrite Hnew in Hd1, Fc.
  split; [apply Hp1; eauto|]. split; [|split].
  - rewrite Fc. apply bool_decide_eq_true.
  - rewrite Ff. destruct k.
    + rewrite Hnew. split; [intros H; split; [reflexivity | exact H]|].
      intros [_ H]. exact H.
    + split; [discriminate|]. intros [H _]. discriminate.
  - rewrite Hd1. destruct dry; reflexivity.
Qed.

(** C7. When a file of the lists is not on the disk, the run returns all
    the same, its output tells that the file was not found, and every file
    that is there is treated as it would be alone: processed, listed as
    changed exactly when its text changes, listed in the warnings exactly
    when it is a Python file whose new text mentions ArduPilot, and holding
    its new text after a live run. *)
Theorem missing_file_tolerated W root dry no_bak w fp :
  In fp (FILES_TO_MIGRATE_python the_module
         ++ FILES_TO_MIGRATE_toml the_module) ->
  disk w !! joinpath root fp = None ->
  let out := run_migration W the_module (new_tool root dry no_bak, w) in
  fst out = Ok tt /\
  FileNotFound fp ∈ stdout (snd (snd out)) /\
  forall k fp' c,
    (k, fp') ∈ jobs the_module ->
    disk w !! joinpath root fp' = Some (File c) ->
    exists c' chs,
      loop_of the_module k c = Ok (c', chs) /\
      Processing (Path fp') ∈ stdout (snd (snd out)) /\
      (joinpath root fp' ∈ changes_made (fst (snd out)) <-> c' <> c) /\
      (joinpath root fp' ∈ warnings (fst (snd out))
       <-> k = Python /\ mentions_ardupilot W c' = true) /\
      disk (snd (snd out)) !! joinpath root fp'
      = Some (File (if dry then c else c')).
Proof.
  intros Hfp Hmissing out.
  destruct (file_outcome_of W the_module root dry no_bak w
              the_module_loop_total the_module_good') as (H1 & H2 & H3).
  fold out in H1, H2, H3.
  split; [exact H1|]. split; [|exact H3].
  apply in_app_iff in Hfp as [H|H].
  - apply (H2 Python fp); [by apply jobs_python | exact Hmissing].
  - apply (H2 Toml fp); [by apply jobs_toml | exact Hmissing].
Qed.

(** The warnings of a run from a fresh tool, with tables whose loops
    return: files of the Python list, and no file of the TOML list. *)
Lemma warnings_of W G root dry no_bak w :
  (forall k c, exists c' chs, loop_of G k c = Ok (c', chs)) ->
  good_targets (targets G) = true ->
  let out := run_migration W G (new_tool root dry no_bak, w) in
  (forall q, q ∈ warnings (fst (snd out)) ->
     exists fp, In fp (FILES_TO_MIGRATE_python G) /\ q = joinpath root fp) /\
  (forall fp, In fp (FILES_TO_MIGRATE_toml G) ->
     joinpath root fp ∉ warnings (fst (snd out))).
Proof.
  intros Hloop Hg out.
  destruct (run_outcome_of W G root dry no_bak w Hloop Hg) as (_ & _ & Hw & _).
  fold out in Hw. rewrite Hw. split.
  - intros q Hq. apply list_elem_of_fmap in Hq as ([k fp] & -> & Hj).
    apply list_elem_of_In, filter_In in Hj as [Hj Hf].
    exists fp. split; [|reflexivity]. unfold flagged in Hf. cbn [fst] in Hf.
    destruct k; [|discriminate]. apply (jobs_inv G Python).
    apply list_elem_of_In. exact Hj.
  - intros fp Hfp Hin. apply jobs_toml in Hfp.
    pose proof (in_filtered G root (flagged W G root (disk w)) (Toml, fp)
                  Hg Hfp) as [Hf _].
    specialize (Hf Hin). unfold flagged in Hf. cbn [fst] in Hf. discriminate.
Qed.

(** C10. [migrate_toml_file] leaves the warnings as they were, whatever the
    file holds and however the call ends; after a run of the script every
    warning is a file of the Python list, and the TOML file is not one. *)
Theorem toml_never_flagged W G root dry no_bak w p s :
  warnings (fst (snd (migrate_toml_file G p s))) = warnings (fst s) /\
  let out := run_migration W the_module (new_tool root dry no_bak, w) in
  (forall q, q ∈ warnings (fst (snd out)) ->
     exists fp, In fp (FILES_TO_MIGRATE_python the_module)
                /\ q = joinpath root fp) /\
  (forall fp, In fp (FILES_TO_MIGRATE_toml the_module) ->
     joinpath root fp ∉ warnings (fst (snd out))).
Proof.
  split; [apply same_warnings_migrate_toml_file|].
  exact (warnings_of W the_module root dry no_bak w
           the_module_loop_total the_module_good').
Qed.

(** ** A file that cannot be read *)

(** C9. When the file cannot be read, [migrate_python_file] and
    [migrate_toml_file] print the error and return: the lists of the tool
    and the disk are as before, and the rules are not applied. *)
Theorem read_failure_is_silent W G p rel t w :
  relative_to p (root_path t) = Ok rel ->
  (forall c, disk w !! p <> Some (File c)) ->
  migrate_python_file W G p (t, w)
  = (Ok tt, (t, with_lines [Processing rel; ErrorReading] w)) /\
  migrate_toml_file G p (t, w)
  = (Ok tt, (t, with_lines [Processing rel; ErrorReading] w)).
Proof.
  intros Hrel Hp. unfold migrate_python_file, migrate_toml_file.
  rewrite !bind_run, !get_self_run, !bind_run, Hrel. cbn [lift_result].
  unfold ret at 1 2. rewrite !bind_run, !print_run, !bind_run, !attempt_run.
  rewrite !open_read_run. cbn [disk with_lines].
  destruct (disk w !! p) as [[c| |]|] eqn:E; cbn [fst snd];
    try (by rewrite print_run, with_lines_app).
  by destruct (Hp c).
Qed.

(** ** Backups *)

(** A turn keeps what stands at a path that is not its file: a backup that
    is there is not written again. *)
Lemma step_keeps W G j t w b n :
  b <> tgt (root_path t) j -> disk w !! b = Some n ->
  disk (snd (snd (step W G j (t, w)))) !! b = Some n.
Proof.
  intros Hb Hn. apply step_cases; try done.
  intros c c' chs _ _. unfold migrated. cbn [fst snd disk].
  destruct (bool_decide (c' ≠ c)); [|done].
  destruct (decide (b = bak (root_path t ++ Path (snd j)))) as [->|Hne].
  - by rewrite disk_written_bak, Hn.
  - by rewrite disk_written_frame.
Qed.

Lemma steps_keep W G b n : forall l t w,
  (forall j, j ∈ l -> b <> tgt (root_path t) j) -> disk w !! b = Some n ->
  disk (snd (snd (for_each l (step W G) (t, w)))) !! b = Some n.
Proof.
  induction l as [|j l IH]; intros t w Hb Hn; [done|].
  rewrite for_each_cons.
  destruct (step_settings W G j t w) as (H1 & _ & _).
  pose proof (step_keeps W G j t w b n (Hb j ltac:(by left)) Hn) as Hk.
  destruct (step W G j (t, w)) as [[[]|e] [t1 w1]]; [|done].
  cbn [fst snd] in *. apply IH; [|done].
  intros j' Hj'. rewrite H1. apply Hb. by right.
Qed.

(** The turn of a file makes its backup, if it makes one, from the text
    that the file held. *)
Lemma step_backs_up W G j t w :
  let p := tgt (root_path t) j in
  disk w !! bak p = None ->
  disk (snd (snd (step W G j (t, w)))) !! bak p = None \/
  exists c, disk w !! p = Some (File c) /\
            disk (snd (snd (step W G j (t, w)))) !! bak p = Some (File c).
Proof.
  intros p Hn. apply step_cases; try (by left).
  intros c c' chs Hp _. unfold migrated. cbn [fst snd disk].
  fold (tgt (root_path t) j). fold p.
  destruct (bool_decide (c' ≠ c)); [|by left].
  rewrite disk_written_bak, Hn.
  destruct (dry_run t || no_backup t); [by left|]. right. eauto.
Qed.

(** Over independent files: the backup of a file [p0] that is not there is
    still not there after the turns, or holds the text that [p0] held
    before them. *)
Lemma steps_back_up W G root rel0 : forall l t w,
  indep (map (fun j => Path (snd j)) l) ->
  root_path t = root -> rel0 <> [] ->
  (forall j, j ∈ l -> tgt root j <> bak (root ++ rel0)) ->
  (forall j, j ∈ l -> bak (tgt root j) <> root ++ rel0) ->
  disk w !! bak (root ++ rel0) = None ->
  disk (snd (snd (for_each l (step W G) (t, w)))) !! bak (root ++ rel0) = None \/
  exists c, disk w !! (root ++ rel0) = Some (File c) /\
    disk (snd (snd (for_each l (step W G) (t, w)))) !! bak (root ++ rel0)
    = Some (File c).
Proof.
  induction l as [|j l IH]; intros t w Hi Hroot Hne Hnb Hnp Hn; [by left|].
  rewrite for_each_cons.
  assert (indep (map (fun j => Path (snd j)) l)) as Hi'
    by (cbn [map] in Hi; by destruct (indep_cons _ _ Hi)).
  destruct (step_settings W G j t w) as (H1 & _ & _).
  assert (Path (snd j) <> []) as Hjne.
  { cbn [map] in Hi. by destruct (indep_cons _ _ Hi) as (_ & ? & _). }
  destruct (decide (Path (snd j) = rel0)) as [E|E].
  - subst rel0 root.
    pose proof (step_backs_up W G j t w Hn) as Hb. cbn zeta in Hb.
    unfold tgt in Hb, Hnb, Hnp.
    pose proof (steps_keep W G (bak (root_path t ++ Path (snd j)))) as Hk.
    pose proof (steps_frame W G (bak (root_path t ++ Path (snd j))) l) as Hf.
    destruct (step W G j (t, w)) as [[[]|e] [t1 w1]]; cbn [fst snd] in *;
      [|exact Hb].
    destruct Hb as [Hb|(c & Hc & Hb)].
    + left. rewrite Hf; [done|]. rewrite H1. unfold tgt. intros j' Hj'. split.
      * intros E'. by apply (Hnb j'); [right|].
      * intros E'. apply bak_inj in E'.
        -- apply app_inv_head in E'.
           cbn [map] in Hi. destruct (indep_cons _ _ Hi) as (_ & _ & _ & Hni & _).
           apply Hni. rewrite E'. apply list_elem_of_fmap. eauto.
        -- by destruct (root_path t), (Path (snd j)).
        -- destruct Hi' as [_ Hi'].
           destruct (Hi' (Path (snd j'))) as (? & _);
             [apply list_elem_of_fmap; eauto|].
           by destruct (root_path t), (Path (snd j')).
    + right. exists c. split; [done|]. apply Hk; [|done].
      rewrite H1. unfold tgt. intros j' Hj' E'.
      apply (Hnb j'); [by right | done].
  - assert (tgt root j <> root ++ rel0) as Np.
    { unfold tgt. intros E'. by apply app_inv_head in E'. }
    assert (bak (root ++ rel0) <> bak (tgt root j)) as Nb.
    { intros E'. apply bak_inj in E'; [by apply Np | by destruct root, rel0 |].
      unfold tgt. by destruct root, (Path (snd j)). }
    pose proof (step_frame W G j t w (bak (root ++ rel0))) as Hf1.
    pose proof (step_frame W G j t w (root ++ rel0)) as Hf2.
    rewrite Hroot in Hf1, Hf2.
    specialize (Hf1 (fun E' => Hnb j ltac:(by left) (eq_sym E')) Nb).
    specialize (Hf2 (fun E' => Np (eq_sym E'))
                    (fun E' => Hnp j ltac:(by left) (eq_sym E'))).
    destruct (step W G j (t, w)) as [[[]|e] [t1 w1]]; cbn [fst snd] in *.
    + rewrite <- Hf2. apply IH; try done; try congruence.
      * intros j' Hj'. apply Hnb. by right.
      * intros j' Hj'. apply Hnp. by right.
    + left. congruence.
Qed.

Lemma target_facts G root rel0 j :
  good_targets (targets G) = true -> rel0 ∈ targets G -> j ∈ jobs G ->
  rel0 <> [] /\ tgt root j <> bak (root ++ rel0) /\
  bak (tgt root j) <> root ++ rel0.
Proof.
  intros Hg H0 Hj. apply good_targets_inv in Hg as [_ Hg].
  assert (Path (snd j) ∈ targets G) as Hj'.
  { unfold targets. apply list_elem_of_fmap. eauto. }
  destruct (Hg _ H0) as (N0 & _ & B0). destruct (Hg _ Hj') as (Nj & _ & Bj).
  split_and!; [done| |].
  - rewrite bak_app by done. unfold tgt. intros E. apply app_inv_head in E.
    congruence.
  - rewrite bak_tgt by done. intros E. apply app_inv_head in E. congruence.
Qed.

Lemma run_world_disk W root python toml dry no_bak w :
  disk (run_world W root (python, toml, dry, no_bak) w)
  = disk (snd (snd (for_each (jobs (with_rules python toml))
                      (step W (with_rules python toml))
                      (new_tool root dry no_bak,
                       with_lines [Mode dry no_bak] w)))).
Proof.
  unfold run_world.
  destruct (run_migration_ends W (with_rules python toml)
              (new_tool root dry no_bak) w (the_module_good python toml))
    as [(_ & H & _) _].
  exact H.
Qed.

(** A run keeps a backup that is there. *)
Lemma run_world_keeps W root cfg w rel0 n :
  rel0 ∈ targets the_module ->
  disk w !! bak (root ++ rel0) = Some n ->
  disk (run_world W root cfg w) !! bak (root ++ rel0) = Some n.
Proof.
  intros H0 Hn. destruct cfg as [[[python toml] dry] no_bak].
  rewrite run_world_disk. apply steps_keep; [|done].
  intros j Hj E. cbn [root_path new_tool] in E.
  by destruct (target_facts (with_rules python toml) root rel0 j
                 (the_module_good python toml) H0 Hj) as (_ & N & _).
Qed.

(** A run makes the backup of a file, if it makes it, from the text that the
    file held when the run began. *)
Lemma run_world_backs_up W root cfg w rel0 :
  rel0 ∈ targets the_module ->
  disk w !! bak (root ++ rel0) = None ->
  disk (run_world W root cfg w) !! bak (root ++ rel0) = None \/
  exists c, disk w !! (root ++ rel0) = Some (File c) /\
            disk (run_world W root cfg w) !! bak (root ++ rel0) = Some (File c).
Proof.
  intros H0 Hn. destruct cfg as [[[python toml] dry] no_bak].
  rewrite run_world_disk.
  pose proof (the_module_good python toml) as Hg.
  apply (steps_back_up W (with_rules python toml) root rel0
           (jobs (with_rules python toml)) (new_tool root dry no_bak)
           (with_lines [Mode dry no_bak] w)).
  - apply good_targets_indep, Hg.
  - reflexivity.
  - apply good_targets_inv in Hg as [_ Hg]. by destruct (Hg _ H0).
  - intros j Hj.
    destruct (target_facts _ root rel0 j Hg H0 Hj) as (_ & N & _). exact N.
  - intros j Hj.
    destruct (target_facts _ root rel0 j Hg H0 Hj) as (_ & _ & N). exact N.
  - exact Hn.
Qed.

Lemma runs_cons W root cfg cfgs w :
  runs W root (cfg :: cfgs) w = runs W root cfgs (run_world W root cfg w).
Proof. reflexivity. Qed.

Lemma runs_keep W root rel0 n : forall cfgs w,
  rel0 ∈ targets the_module ->
  disk w !! bak (root ++ rel0) = Some n ->
  disk (runs W root cfgs w) !! bak (root ++ rel0) = Some n.
Proof.
  induction cfgs as [|cfg cfgs IH]; intros w H0 Hn; [done|].
  rewrite runs_cons. apply IH; [done|]. by apply run_world_keeps.
Qed.

Lemma runs_back_up W root rel0 : forall cfgs w n,
  rel0 ∈ targets the_module ->
  disk w !! bak (root ++ rel0) = None ->
  disk (runs W root cfgs w) !! bak (root ++ rel0) = Some n ->
  exists pre cfg post c,
    cfgs = pre ++ cfg :: post /\
    disk (runs W root pre w) !! bak (root ++ rel0) = None /\
    disk (runs W root pre w) !! (root ++ rel0) = Some (File c) /\
    n = File c.
Proof.
  induction cfgs as [|cfg cfgs IH]; intros w n H0 Hn Hs.
  - cbn in Hs. congruence.
  - rewrite runs_cons in Hs.
    destruct (run_world_backs_up W root cfg w rel0 H0 Hn) as [H1|(c & Hc & H1)].
    + destruct (IH _ n H0 H1 Hs) as (pre & cfg' & post & c & -> & P1 & P2 & ->).
      exists (cfg :: pre), cfg', post, c. by rewrite runs_cons.
    + rewrite (runs_keep W root rel0 (File c) cfgs _ H0 H1) in Hs.
      injection Hs as <-. exists [], cfg, cfgs, c. done.
Qed.

Lemma targets_in fp :
  In fp (FILES_TO_MIGRATE_python the_module
         ++ FILES_TO_MIGRATE_toml the_module) ->
  Path fp ∈ targets the_module.
Proof.
  intros H. unfold targets. apply in_app_iff in H as [H|H].
  - apply (list_elem_of_fmap_2 (fun j => Path (snd j)) _ (Python, fp)).
    by apply jobs_python.
  - apply (list_elem_of_fmap_2 (fun j => Path (snd j)) _ (Toml, fp)).
    by apply jobs_toml.
Qed.

(** C1. [backup_file] leaves the state as it was when the backup path is
    taken.  Over any number of runs of the script, with any rules and flags,
    a backup of a file of the lists that is there stays as it is; one that
    was not there and is there at the end holds the text that the file held
    before the first run that made it. *)
Theorem backup_made_once W root cfgs w fp p t w0 :
  valid_name (path_name p) = true ->
  is_Some (disk w0 !! bak p) ->
  In fp (FILES_TO_MIGRATE_python the_module
         ++ FILES_TO_MIGRATE_toml the_module) ->
  backup_file p (t, w0) = (Ok tt, (t, w0)) /\
  (forall n, disk w !! bak (joinpath root fp) = Some n ->
     disk (runs W root cfgs w) !! bak (joinpath root fp) = Some n) /\
  (disk w !! bak (joinpath root fp) = None ->
   forall n, disk (runs W root cfgs w) !! bak (joinpath root fp) = Some n ->
   exists pre cfg post c,
     cfgs = pre ++ cfg :: post /\
     disk (runs W root pre w) !! bak (joinpath root fp) = None /\
     disk (runs W root pre w) !! joinpath root fp = Some (File c) /\
     n = File c).
Proof.
  intros Hv Hthere Hfp. apply targets_in in Hfp. split_and!.
  - rewrite backup_file_eq by auto. unfold backup_lines.
    destruct Hthere as [n Hn]. rewrite Hn.
    rewrite bool_decide_eq_false_2 by done. rewrite andb_false_r, app_nil_r.
    destruct w0. by destruct (no_backup t || dry_run t).
  - intros n Hn. by apply runs_keep.
  - intros Hn n Hs. by apply (runs_back_up W root (Path fp) cfgs w n).
Qed.

(** ** The fixers, run symbolically *)

Lemma fix_print_run l w : Fix.print l w = (Ok tt, with_lines [l] w).
Proof. reflexivity. Qed.

Lemma fix_exists_run p w :
  Fix.exists_ p w = (Ok (bool_decide (is_Some (disk w !! p))), w).
Proof. reflexivity. Qed.

Lemma fix_open_read_run p w :
  Fix.open_read p w =
  match disk w !! p with
  | Some (File content) => (Ok content, w)
  | Some Binary => (Raise ValueError, w)
  | _ => (Raise OSError, w)
  end.
Proof. reflexivity. Qed.

Lemma fix_open_write_run p content w :
  Fix.open_write p content w =
  match disk w !! p with
  | Some Directory => (Raise OSError, w)
  | _ => (Ok tt, {| disk := <[p := File content]> (disk w);
                    stdout := stdout w |})
  end.
Proof. reflexivity. Qed.

Lemma fix_copy2_run src dst n w :
  disk w !! src = Some n -> n <> Directory -> disk w !! dst = None ->
  Fix.copy2 src dst w
  = (Ok tt, {| disk := <[dst := n]> (disk w); stdout := stdout w |}).
Proof.
  intros Hs Hn Hd. unfold Fix.copy2. cbn [id].
  rewrite Hs, Hd. by destruct n.
Qed.

Lemma re_sub_dynamic_control c :
  re_sub false Fix.dynamic_control_pattern Fix.dynamic_control_import c
  = Ok (fix_dynamic_control c).
Proof.
  unfold re_sub, compile_or_raise, fix_dynamic_control, regex_of.
  assert (re_compile Fix.dynamic_control_pattern
          = Compiled (regex_of Fix.dynamic_control_pattern)) as ->
    by (vm_compute; reflexivity).
  assert (plain_template Fix.dynamic_control_import = true) as ->
    by (vm_compute; reflexivity).
  unfold regex_of.
  assert (re_compile Fix.dynamic_control_pattern
          = Compiled (regex_of Fix.dynamic_control_pattern)) as ->
    by (vm_compute; reflexivity).
  done.
Qed.

Lemma re_sub_func c :
  re_sub true Fix.func_pattern Fix.new_function c
  = Ok (sub true (regex_of Fix.func_pattern) (cps Fix.new_function) c).
Proof.
  unfold re_sub, compile_or_raise.
  assert (re_compile Fix.func_pattern = Compiled (regex_of Fix.func_pattern))
    as -> by (vm_compute; reflexivity).
  assert (plain_template Fix.new_function = true) as ->
    by (vm_compute; reflexivity).
  done.
Qed.

Lemma fix_backup_eq p bp c w :
  disk w !! p = Some (File c) ->
  with_suffix p ".py.ardupilot_backup" = Ok bp ->
  Fix.backup p w
  = (Ok tt, {| disk := backed_up bp c (disk w);
               stdout := stdout w ++
                 (if bool_decide (disk w !! bp = None)
                  then [BackedUp (path_name bp)] else []) |}).
Proof.
  intros Hp Hbp. unfold Fix.backup, backed_up.
  rewrite bind_run, Hbp. cbn [lift_result]. unfold ret at 1.
  rewrite bind_run, fix_exists_run.
  destruct (disk w !! bp) as [n|] eqn:Hb.
  - rewrite bool_decide_eq_true_2 by eauto. cbn [negb].
    rewrite bool_decide_eq_false_2 by done. rewrite app_nil_r. by destruct w.
  - rewrite bool_decide_eq_false_2 by (by intros [? ?]). cbn [negb].
    rewrite bind_run, (fix_copy2_run _ _ (File c)), fix_print_run by done.
    by rewrite bool_decide_eq_true_2.
Qed.

Lemma backed_up_target p bp c d :
  d !! p = Some (File c) -> backed_up bp c d !! p = Some (File c).
Proof.
  intros Hp. unfold backed_up. destruct (d !! bp) eqn:Hb; [done|].
  rewrite lookup_insert_ne; [done|]. intros ->. congruence.
Qed.

(** The end of both fixers: write if changed. *)
Lemma fix_write_eq p bp c c' w :
  disk w !! p = Some (File c) ->
  (if bool_decide (c' ≠ c)
   then do _ <- Fix.open_write p c'; Fix.print Fixed
   else Fix.print NoChanges)
    {| disk := backed_up bp c (disk w);
       stdout := (stdout w ++ [Processing p]) ++
                 (if bool_decide (disk w !! bp = None)
                  then [BackedUp (path_name bp)] else []) |}
  = (Ok tt, fixer_done p bp c c' w).
Proof.
  intros Hp. unfold fixer_done.
  destruct (bool_decide (c' ≠ c)).
  - rewrite bind_run, fix_open_write_run. cbn [disk stdout].
    rewrite (backed_up_target p bp c _ Hp), fix_print_run.
    unfold with_lines. cbn [disk stdout]. by rewrite <- !app_assoc.
  - rewrite fix_print_run. unfold with_lines. cbn [disk stdout].
    by rewrite <- !app_assoc.
Qed.

Lemma fix_vehicle_file_eq p bp c w :
  disk w !! p = Some (File c) ->
  with_suffix p ".py.ardupilot_backup" = Ok bp ->
  Fix.fix_vehicle_file p w = (Ok tt, fixer_done p bp c (fixed_vehicle c) w).
Proof.
  intros Hp Hbp. unfold Fix.fix_vehicle_file.
  rewrite bind_run, fix_print_run, bind_run.
  rewrite fix_open_read_run. cbn [with_lines disk]. rewrite Hp.
  rewrite bind_run, (fix_backup_eq p bp c) by done. cbn [disk stdout].
  rewrite bind_run, re_sub_dynamic_control. cbn [lift_result]. unfold ret at 1.
  rewrite bind_run, re_sub_func. cbn [lift_result]. unfold ret at 1.
  exact (fix_write_eq p bp c (fixed_vehicle c) w Hp).
Qed.

Lemma fix_multirotor_file_eq p bp c w :
  disk w !! p = Some (File c) ->
  with_suffix p ".py.ardupilot_backup" = Ok bp ->
  Fix.fix_multirotor_file p w
  = (Ok tt, fixer_done p bp c (fix_dynamic_control c) w).
Proof.
  intros Hp Hbp. unfold Fix.fix_multirotor_file.
  rewrite bind_run, fix_print_run, bind_run.
  rewrite fix_open_read_run. cbn [with_lines disk]. rewrite Hp.
  rewrite bind_run, (fix_backup_eq p bp c) by done. cbn [disk stdout].
  rewrite bind_run, re_sub_dynamic_control. cbn [lift_result]. unfold ret at 1.
  exact (fix_write_eq p bp c (fix_dynamic_control c) w Hp).
Qed.

(** ** A file that the rules leave as it is *)

(** C4, as amended. When the rules leave the text as it was,
    [migrate_python_file] and [migrate_toml_file] leave the disk as it was;
    [fix_vehicle_file] and [fix_multirotor_file] do not write the file, but
    they have made its backup already, unless one was there. *)
Theorem unchanged_file_untouched W G p rel t w c chs bp :
  relative_to p (root_path t) = Ok rel ->
  valid_name (path_name p) = true ->
  disk w !! p = Some (File c) ->
  with_suffix p ".py.ardupilot_backup" = Ok bp ->
  (replace_loop FirstMatch (PYTHON_REPLACEMENTS G) c [] = Ok (c, chs) ->
   disk (snd (snd (migrate_python_file W G p (t, w)))) = disk w) /\
  (replace_loop PatternText (TOML_REPLACEMENTS G) c [] = Ok (c, chs) ->
   disk (snd (snd (migrate_toml_file G p (t, w)))) = disk w) /\
  (fixed_vehicle c = c ->
   disk (snd (Fix.fix_vehicle_file p w)) = backed_up bp c (disk w)) /\
  (fix_dynamic_control c = c ->
   disk (snd (Fix.fix_multirotor_file p w)) = backed_up bp c (disk w)) /\
  backed_up bp c (disk w) !! p = Some (File c).
Proof.
  intros Hrel Hv Hp Hbp. split_and!.
  - intros Hl. rewrite (migrate_python_file_eq W G p rel) by done.
    rewrite Hp, Hl. unfold migrated. cbn [fst snd disk].
    by rewrite bool_decide_eq_false_2 by (by intros H).
  - intros Hl. rewrite (migrate_toml_file_eq G p rel) by done.
    rewrite Hp, Hl. unfold migrated. cbn [fst snd disk].
    by rewrite bool_decide_eq_false_2 by (by intros H).
  - intros Hf. rewrite (fix_vehicle_file_eq p bp c) by done.
    unfold fixer_done. cbn [snd disk]. rewrite Hf.
    by rewrite bool_decide_eq_false_2 by (by intros H).
  - intros Hf. rewrite (fix_multirotor_file_eq p bp c) by done.
    unfold fixer_done. cbn [snd disk]. rewrite Hf.
    by rewrite bool_decide_eq_false_2 by (by intros H).
  - by apply backed_up_target.
Qed.

(** ** The attention scan *)

Lemma starts_with_app (n h : text) : starts_with n (n ++ h) = true.
Proof. induction n as [|a n IH]; [done|]. simpl. by rewrite N.eqb_refl. Qed.

Lemma contains_unfold (n h : text) :
  contains n h
  = starts_with n h
    || match h with
       | [] => false
       | _ :: h' => contains n h'
       end.
Proof. by destruct h. Qed.

Lemma contains_app (pre n post : text) : contains n (pre ++ n ++ post) = true.
Proof.
  induction pre as [|a pre IH].
  - rewrite contains_unfold. cbn [app]. by rewrite starts_with_app.
  - rewrite contains_unfold. cbn [app]. rewrite IH. apply orb_true_r.
Qed.

Lemma starts_with_inv : forall (n h : text),
  starts_with n h = true -> exists post, h = n ++ post.
Proof.
  induction n as [|a n IH]; intros h H; [by exists h|].
  destruct h as [|b h]; [done|]. simpl in H.
  apply andb_true_iff in H as [E H]. apply N.eqb_eq in E as ->.
  destruct (IH _ H) as [post ->]. by exists post.
Qed.

Lemma contains_inv (n : text) : forall h,
  contains n h = true -> exists pre post, h = pre ++ n ++ post.
Proof.
  induction h as [|a h IH]; intros H.
  - simpl in H. rewrite orb_false_r in H.
    destruct (starts_with_inv _ _ H) as [post ->]. by exists [], post.
  - simpl in H. apply orb_true_iff in H as [H|H].
    + destruct (starts_with_inv _ _ H) as [post ->]. by exists [], post.
    + destruct (IH H) as (pre & post & ->). by exists (a :: pre), post.
Qed.

(** The lower-casing of a text with a prefix ends with the lower-casing of
    the rest, in the context of the prefix. *)
Lemma lower_from_split W : forall (pre rest before : text),
  exists A, lower_from W before (pre ++ rest)
            = A ++ lower_from W (rev pre ++ before) rest.
Proof.
  induction pre as [|a pre IH]; intros rest before; [by exists []|].
  cbn [lower_from app rev]. destruct (IH rest (a :: before)) as [A ->].
  rewrite <- (app_assoc (rev pre)). cbn [app]. eexists. by rewrite app_assoc.
Qed.

Lemma ascii_lower_small c : (ascii_lower c < 128)%N -> (c < 128)%N.
Proof.
  unfold ascii_lower. destruct ((65 <=? c)%N && (c <=? 90)%N) eqn:E; [|done].
  apply andb_true_iff in E as [_ E]. apply N.leb_le in E. lia.
Qed.

(** A run of ASCII characters is lower-cased letter by letter, whatever
    stands around it. *)
Lemma lower_from_ascii W : forall (x post before : text),
  Forall (fun c => (c < 128)%N) x ->
  lower_from W before (x ++ post)
  = map ascii_lower x ++ lower_from W (rev x ++ before) post.
Proof.
  induction x as [|a x IH]; intros post before H; [done|].
  inversion H as [|? ? Ha Hx]; subst. cbn [lower_from map app rev].
  apply N.ltb_lt in Ha. rewrite Ha. cbn [app]. rewrite IH by done.
  by rewrite <- (app_assoc (rev x)).
Qed.

Lemma lower_variant W (pre v post : text) :
  map ascii_lower v = cps "ardupilot" ->
  contains (cps "ardupilot") (lower W (pre ++ v ++ post)) = true.
Proof.
  intros Hv. unfold lower.
  destruct (lower_from_split W pre (v ++ post) []) as [A ->].
  rewrite lower_from_ascii, Hv; [apply contains_app|].
  assert (Forall (fun c => (c < 128)%N) (map ascii_lower v)) as Hs.
  { rewrite Hv. vm_compute. repeat constructor. }
  clear Hv. induction v as [|a v IH]; [done|].
  cbn [map] in Hs. inversion Hs; subst.
  constructor; [by apply ascii_lower_small | by apply IH].
Qed.

(** C5, as amended. The attention scan is a search without regard to case:
    the file is flagged exactly when its lower-cased text contains
    "ardupilot", and so is a text with the word in any mix of cases; the
    test of "ArduPilot" adds nothing.  The outcome is a yes or a no. *)
Theorem attention_scan_ignores_case W content :
  mentions_ardupilot W content
  = contains (cps "ardupilot") (lower W content) /\
  forall pre v post,
    content = pre ++ v ++ post -> map ascii_lower v = cps "ardupilot" ->
    mentions_ardupilot W content = true.
Proof.
  assert (forall pre v post,
            content = pre ++ v ++ post -> map ascii_lower v = cps "ardupilot" ->
            contains (cps "ardupilot") (lower W content) = true) as Hv.
  { intros pre v post -> Hl. by apply lower_variant. }
  split.
  - unfold mentions_ardupilot.
    destruct (contains (cps "ArduPilot") content) eqn:E;
      [|by rewrite orb_false_r].
    destruct (contains_inv _ _ E) as (pre & post & Hc).
    rewrite (Hv pre (cps "ArduPilot") post Hc); [done|].
    vm_compute. reflexivity.
  - intros pre v post Hc Hl. unfold mentions_ardupilot.
    by rewrite (Hv pre v post Hc Hl).
Qed.

(** ** A pattern that does not compile *)

Lemma replace_loop_bad sh : forall rules1 crs1 bad new_pattern rules2 c chs,
  compile_rules rules1 = Some crs1 ->
  re_compile bad = BadPattern ->
  replace_loop sh (rules1 ++ (bad, new_pattern) :: rules2) c chs
  = Raise re_error.
Proof.
  induction rules1 as [|[old_pattern np] rules1 IH];
    intros crs1 bad new_pattern rules2 c chs Hc Hbad.
  - cbn [app replace_loop]. unfold re_findall, compile_or_raise.
    by rewrite Hbad.
  - apply compile_rules_cons in Hc as ([r repl] & crs' & -> & Hr & Hc).
    apply compile_rule_Some in Hr as (Hr & Hp & -> & Hne). simpl in Hr, Hp.
    cbn [app]. rewrite (replace_loop_step _ _ _ _ r) by done.
    destruct (findall false r c); by eapply IH.
Qed.

(** C6, as amended. Nothing checks a pattern before it is used: a pattern
    that does not compile raises [re.error] in the loop of the first file
    that is read with it, after the rules before it were applied in memory;
    that file is neither backed up nor written, and the lists of the tool
    are as before. *)
Theorem malformed_pattern_raises_at_use
    W G p rel t w c rules1 crs1 bad new_pattern rules2 :
  relative_to p (root_path t) = Ok rel ->
  disk w !! p = Some (File c) ->
  compile_rules rules1 = Some crs1 ->
  re_compile bad = BadPattern ->
  (PYTHON_REPLACEMENTS G = rules1 ++ (bad, new_pattern) :: rules2 ->
   migrate_python_file W G p (t, w)
   = (Raise re_error, (t, with_lines [Processing rel] w))) /\
  (TOML_REPLACEMENTS G = rules1 ++ (bad, new_pattern) :: rules2 ->
   migrate_toml_file G p (t, w)
   = (Raise re_error, (t, with_lines [Processing rel] w))).
Proof.
  intros Hrel Hp Hc Hbad. split; intros HG.
  - unfold migrate_python_file.
    rewrite bind_run, get_self_run, bind_run, Hrel. cbn [lift_result].
    unfold ret at 1. rewrite bind_run, print_run, bind_run, attempt_run.
    rewrite open_read_run. cbn [disk with_lines]. rewrite Hp. cbn [fst snd].
    rewrite bind_run, HG, (replace_loop_bad _ _ crs1) by done. done.
  - unfold migrate_toml_file.
    rewrite bind_run, get_self_run, bind_run, Hrel. cbn [lift_result].
    unfold ret at 1. rewrite bind_run, print_run, bind_run, attempt_run.
    rewrite open_read_run. cbn [disk with_lines]. rewrite Hp. cbn [fst snd].
    rewrite bind_run, HG, (replace_loop_bad _ _ crs1) by done. done.
Qed.

(** ** What the loop records *)

Lemma re_compile_never_empty pattern r :
  re_compile pattern = Compiled r -> never_empty r = true.
Proof.
  unfold re_compile. destruct (build _) as [r1| |]; try done.
  destruct (never_empty r1) eqn:E; by intros [= <-].
Qed.

(** In the loops of [migrate_python_file] and [migrate_toml_file], a rule
    whose pattern occurs in the text replaces every occurrence: the scan
    cuts the text at all of them, from left to right and without overlap,
    leaving none between the pieces or after them, and the new text is the
    text with each occurrence replaced.  The rule adds one record, with the
    leftmost occurrence in [migrate_python_file] and with the text of the
    pattern in [migrate_toml_file].  A rule whose pattern does not occur
    changes nothing and records nothing. *)
Theorem rule_replaces_all sh old_pattern new_pattern r rules c chs :
  re_compile old_pattern = Compiled r ->
  plain_template new_pattern = true ->
  let segs := fst (scan false r c) in
  let tail := snd (scan false r c) in
  cut_all false r segs tail c /\
  c = concat (map (fun seg => fst seg ++ snd seg) segs) ++ tail /\
  match segs with
  | [] =>
      replace_loop sh ((old_pattern, new_pattern) :: rules) c chs
      = replace_loop sh rules c chs
  | (_, m0) :: _ =>
      replace_loop sh ((old_pattern, new_pattern) :: rules) c chs
      = replace_loop sh rules
          (concat (map (fun seg => fst seg ++ cps new_pattern) segs) ++ tail)
          (chs ++ [{| shown := match sh with
                               | FirstMatch => m0
                               | PatternText => cps old_pattern
                               end;
                      new := new_pattern |}])
  end.
Proof.
  intros Hc Hp segs tail. pose proof (re_compile_never_empty _ _ Hc) as Hr.
  split; [by apply scan_cut_all|].
  split; [symmetry; by apply (rebuild_scan false r Hr c)|].
  rewrite (replace_loop_step _ _ _ _ r) by done. unfold findall, sub, rebuild.
  fold segs tail. destruct segs as [|[before m0] segs']; [done|].
  cbn [map snd]. by destruct sh.
Qed.

(** ** What a run touches, and that it returns *)

Lemma jobs_with_rules python toml :
  jobs (with_rules python toml) = jobs the_module.
Proof. reflexivity. Qed.

(** A run of the script writes only the files of its lists and their
    backups: every other path of the disk holds after the run what it held
    before, whatever the rule tables and the flags, and also when the run
    ends with an exception. *)
Theorem run_touches_only_listed W python toml root dry no_bak w q :
  (forall j, j ∈ jobs the_module ->
     q <> tgt root j /\ q <> bak (tgt root j)) ->
  disk (snd (snd (run_migration W (with_rules python toml)
                    (new_tool root dry no_bak, w)))) !! q
  = disk w !! q.
Proof.
  intros H.
  change (disk (run_world W root (python, toml, dry, no_bak) w) !! q
          = disk w !! q).
  rewrite run_world_disk, jobs_with_rules.
  exact (steps_frame W (with_rules python toml) q (jobs the_module)
           (new_tool root dry no_bak) (with_lines [Mode dry no_bak] w) H).
Qed.


(** The files of [ARDUPILOT_FILES], which the summary names for manual
    attention, are in no list of the run and are the backup of no file of
    them: a run leaves each as it is, whatever the rule tables. *)
Theorem ardupilot_files_untouched W python toml root dry no_bak w f :
  In f (ARDUPILOT_FILES the_module) ->
  disk (snd (snd (run_migration W (with_rules python toml)
                    (new_tool root dry no_bak, w)))) !! joinpath root f
  = disk w !! joinpath root f.
Proof.
  intros Hf.
  change (disk (run_world W root (python, toml, dry, no_bak) w)
            !! joinpath root f = disk w !! joinpath root f).
  rewrite run_world_disk, jobs_with_rules.
  apply (steps_frame W (with_rules python toml) (joinpath root f)
           (jobs the_module) (new_tool root dry no_bak)
           (with_lines [Mode dry no_bak] w)).
  intros j Hj. cbn [root_path new_tool].
  assert (Path (snd j) <> [] /\ Path f <> Path (snd j)
          /\ Path f <> bak (Path (snd j))) as (H1 & H2 & H3).
  { apply list_elem_of_In in Hj. vm_compute in Hf, Hj.
    destruct Hf as [<-|[<-|[]]];
      repeat (destruct Hj as [<-|Hj];
              [split_and!; vm_compute; discriminate|]);
      destruct Hj. }
  split.
  - unfold joinpath, tgt. intros E. by apply app_inv_head in E.
  - rewrite bak_tgt by done. unfold joinpath. intros E.
    by apply app_inv_head in E.
Qed.

(** ** The path of a backup *)

Lemma valid_name_path p : valid_name (path_name p) = true -> p <> [].
Proof. intros H ->. discriminate. Qed.

(** [backup_file] keeps the backup of a file beside it, under the name of
    the file with [.bak] at its end, whatever suffix the name has; the path
    is computed without an exception, it is not the path of the file, and
    two files never share it. *)
Theorem backup_path_beside p :
  valid_name (path_name p) = true ->
  with_suffix p (path_suffix p +:+ ".bak") = Ok (bak p) /\
  path_name (bak p) = path_name p +:+ ".bak" /\
  removelast (bak p) = removelast p /\
  bak p <> p /\
  forall q, valid_name (path_name q) = true -> bak q = bak p -> q = p.
Proof.
  intros Hv. split; [by apply with_suffix_bak|].
  split; [unfold bak, path_name; apply last_last|].
  split; [unfold bak; apply removelast_last|].
  split; [apply bak_neq|].
  intros q Hq E. apply bak_inj; [by apply valid_name_path..|done].
Qed.

(** ** The fixers *)

(** Without the file, both fixers raise after their first line: they have
    no handler around [open], and nothing is written. *)
Theorem fixer_missing_file_raises p w :
  disk w !! p = None ->
  Fix.fix_vehicle_file p w = (Raise OSError, with_lines [Processing p] w) /\
  Fix.fix_multirotor_file p w = (Raise OSError, with_lines [Processing p] w).
Proof.
  intros Hp. split.
  - unfold Fix.fix_vehicle_file.
    rewrite bind_run, fix_print_run, bind_run, fix_open_read_run.
    cbn [with_lines disk]. by rewrite Hp.
  - unfold Fix.fix_multirotor_file.
    rewrite bind_run, fix_print_run, bind_run, fix_open_read_run.
    cbn [with_lines disk]. by rewrite Hp.
Qed.

(** The first fix makes no new match of its own pattern. *)
Lemma fix_dynamic_control_idempotent c :
  fix_dynamic_control (fix_dynamic_control c) = fix_dynamic_control c.
Proof.
  apply (substitute_all_idempotent
           [(regex_of Fix.dynamic_control_pattern,
             cps Fix.dynamic_control_import)] c).
  vm_compute. reflexivity.
Qed.

Lemma string_app_inv_head u : forall s t, u +:+ s = u +:+ t -> s = t.
Proof.
  induction u as [|a u IH]; intros s t H; [exact H|].
  rewrite !string_app_cons in H. injection H as H. by apply IH.
Qed.

(** The backup of a fixer is another path than the file. *)
Lemma ardupilot_backup_neq p bp :
  with_suffix p ".py.ardupilot_backup" = Ok bp -> bp <> p.
Proof.
  unfold with_suffix.
  assert (string_mem "/" ".py.ardupilot_backup" = false) as -> by reflexivity.
  assert ((negb (String.eqb ".py.ardupilot_backup" EmptyString)
           && negb (String.prefix "." ".py.ardupilot_backup")
           || String.eqb ".py.ardupilot_backup" ".")%bool = false) as ->
    by reflexivity.
  cbn zeta. destruct (String.eqb (path_name p) EmptyString) eqn:Hn; [done|].
  apply String.eqb_neq in Hn. intros [= <-] E.
  assert (p <> []) as Hp by (intros ->; by apply Hn).
  pose proof (app_removelast_last EmptyString Hp) as Hdec.
  fold (path_name p) in Hdec. set (nm := path_name p) in *.
  rewrite Hdec in E at 2. apply app_inv_head in E. injection E as E.
  destruct (suffix_of_cases nm) as [Hs|(i & rest & Hs & Hr & _)].
  - rewrite Hs in E. cbn [String.eqb] in E.
    apply (f_equal String.length) in E. rewrite string_length_app in E.
    simpl in E. lia.
  - pose proof (stem_suffix nm) as Hst. rewrite Hs in E, Hst.
    cbn [String.eqb] in E. rewrite <- Hst in E at 3.
    apply string_app_inv_head in E. injection E as <-. discriminate.
Qed.

(** [fix_multirotor_file] settles: run again on what it left, it finds the
    backup in place and nothing to change, prints so, and leaves the disk
    as it is. *)
Theorem fix_multirotor_settles p bp c w :
  disk w !! p = Some (File c) ->
  with_suffix p ".py.ardupilot_backup" = Ok bp ->
  let w1 := snd (Fix.fix_multirotor_file p w) in
  Fix.fix_multirotor_file p w1
  = (Ok tt, with_lines [Processing p; NoChanges] w1).
Proof.
  intros Hp Hbp w1. pose proof (ardupilot_backup_neq p bp Hbp) as Hne.
  subst w1. rewrite (fix_multirotor_file_eq p bp c w Hp Hbp). cbn [snd].
  set (c' := fix_dynamic_control c).
  assert (disk (fixer_done p bp c c' w) !! p = Some (File c')) as Hp1.
  { unfold fixer_done. cbn [disk]. destruct (bool_decide (c' ≠ c)) eqn:E.
    - apply lookup_insert_eq.
    - apply bool_decide_eq_false in E. apply dec_stable in E. rewrite E.
      by apply backed_up_target. }
  assert (is_Some (disk (fixer_done p bp c c' w) !! bp)) as [n Hb1].
  { unfold fixer_done. cbn [disk].
    assert (is_Some (backed_up bp c (disk w) !! bp)) as Hb.
    { unfold backed_up. destruct (disk w !! bp) eqn:E; [by rewrite E|].
      rewrite lookup_insert_eq. eauto. }
    destruct (bool_decide (c' ≠ c)); [|done].
    by rewrite lookup_insert_ne. }
  rewrite (fix_multirotor_file_eq p bp c' _ Hp1 Hbp).
  unfold c' at 2. rewrite fix_dynamic_control_idempotent. fold c'.
  f_equal. unfold fixer_done at 1, with_lines.
  rewrite bool_decide_eq_false_2 by (intros H; by apply H).
  rewrite (bool_decide_eq_false_2 (_ !! bp = None)) by (by rewrite Hb1).
  unfold backed_up. rewrite Hb1. done.
Qed.

(** The disk of a fixer at the path of the backup: what was there stays,
    and where nothing was the text read from the file is kept. *)
Lemma fixer_done_backup p bp c c' w :
  bp <> p ->
  (forall n, disk w !! bp = Some n ->
     disk (fixer_done p bp c c' w) !! bp = Some n) /\
  (disk w !! bp = None ->
     disk (fixer_done p bp c c' w) !! bp = Some (File c)).
Proof.
  intros Hne. unfold fixer_done. cbn [disk].
  assert ((if bool_decide (c' ≠ c)
           then <[p := File c']> (backed_up bp c (disk w))
           else backed_up bp c (disk w)) !! bp
          = backed_up bp c (disk w) !! bp) as E.
  { destruct (bool_decide (c' ≠ c)); [|done]. by rewrite lookup_insert_ne. }
  rewrite E. unfold backed_up. split.
  - intros n Hn. by rewrite Hn.
  - intros Hn. rewrite Hn. apply lookup_insert_eq.
Qed.

(** Both fixers keep a backup that is there, also when they rewrite the
    file; where there is none they make it from the text of the file as it
    was before the fix. *)
Theorem fixer_backup_once p bp c w :
  disk w !! p = Some (File c) ->
  with_suffix p ".py.ardupilot_backup" = Ok bp ->
  (forall n, disk w !! bp = Some n ->
     disk (snd (Fix.fix_vehicle_file p w)) !! bp = Some n /\
     disk (snd (Fix.fix_multirotor_file p w)) !! bp = Some n) /\
  (disk w !! bp = None ->
     disk (snd (Fix.fix_vehicle_file p w)) !! bp = Some (File c) /\
     disk (snd (Fix.fix_multirotor_file p w)) !! bp = Some (File c)).
Proof.
  intros Hp Hbp. pose proof (ardupilot_backup_neq p bp Hbp) as Hne.
  rewrite (fix_vehicle_file_eq p bp c w Hp Hbp).
  rewrite (fix_multirotor_file_eq p bp c w Hp Hbp). cbn [snd].
  destruct (fixer_done_backup p bp c (fixed_vehicle c) w Hne) as [V1 V2].
  destruct (fixer_done_backup p bp c (fix_dynamic_control c) w Hne) as [M1 M2].
  split; [intros n Hn | intros Hn]; split; auto.
Qed.

(** [fix_vehicle_file] does not settle.  The function that it writes
    begins with the line that its pattern begins with, so a second run
    matches again, from that line to the next [return rotation] of the
    file: on the vehicle file of the examples the second run rewrites the
    file and the function [heading] is gone. *)
Lemma fix_vehicle_second_run_rewrites :
  let w1 := snd (Fix.fix_vehicle_file vehicle_py vehicle_world) in
  let w2 := snd (Fix.fix_vehicle_file vehicle_py w1) in
  disk w1 !! vehicle_py
  = Some (File (cps (Fix.new_function +:+ "

def heading(rotation):
    return rotation
"))) /\
  stdout w2 = stdout w1 ++ [Processing vehicle_py; Fixed] /\
  disk w2 !! vehicle_py = Some (File (cps (Fix.new_function +:+ "
"))).
Proof. vm_compute. done. Qed.

(** ** The verifier *)

(** The loop, on files that are missing or can be read: the flag it
    returns and the line it prints for each file. *)
Lemma verify_loop_eq dir : forall files flag w,
  readable dir files (disk w) ->
  exists ls,
    Fix.verify_loop dir files flag w
    = (Ok (flag || negb (forallb (fun file =>
                 match disk w !! joinpath dir file with
                 | Some (File c) =>
                     forallb (fun imp => negb (contains (cps imp) c))
                       Fix.isaac_imports
                 | _ => true
                 end) files)),
       with_lines ls w) /\
    Forall2 (fun file l => verdict file (disk w !! joinpath dir file) = Some l)
      files ls.
Proof.
  induction files as [|file files IH]; intros flag w Hr.
  - exists []. cbn. rewrite orb_false_r, with_lines_nil. split; [done|constructor].
  - assert (readable dir files (disk w)) as Hr'
      by (intros f Hf; apply Hr; by right).
    cbn [Fix.verify_loop forallb]. rewrite bind_run, fix_exists_run.
    destruct (Hr file (or_introl eq_refl)) as [Hn|[c Hc]].
    + rewrite Hn. rewrite bool_decide_eq_false_2 by (by intros [? ?]).
      rewrite bind_run, fix_print_run.
      destruct (IH flag (with_lines [NotFound file] w) Hr') as (ls & E & F).
      exists (NotFound file :: ls). rewrite E. cbn [with_lines disk andb].
      split.
      * f_equal. unfold with_lines. cbn [disk stdout]. by rewrite <- app_assoc.
      * constructor; [by rewrite Hn | done].
    + rewrite Hc. rewrite bool_decide_eq_true_2 by eauto.
      rewrite bind_run, fix_open_read_run, Hc.
      set (f := fun imp : string => contains (cps imp) c).
      assert (forallb (fun imp => negb (contains (cps imp) c)) Fix.isaac_imports
              = match List.filter f Fix.isaac_imports with
                | [] => true
                | _ :: _ => false
                end) as Hfo.
      { generalize Fix.isaac_imports. intros l.
        induction l as [|a l IHl]; [done|]. cbn [forallb List.filter].
        unfold f at 1. destruct (contains (cps a) c); [done|]. exact IHl. }
      rewrite Hfo.
      destruct (List.filter f Fix.isaac_imports) as [|i found] eqn:Hfound.
      * rewrite bind_run, fix_print_run.
        destruct (IH flag (with_lines [NoDependencies file] w) Hr')
          as (ls & E & F).
        exists (NoDependencies file :: ls). rewrite E.
        cbn [with_lines disk andb]. split.
        -- f_equal. unfold with_lines. cbn [disk stdout].
           by rewrite <- app_assoc.
        -- constructor; [|done]. rewrite Hc. cbn [verdict]. fold f.
           by rewrite Hfound.
      * rewrite bind_run, fix_print_run.
        destruct (IH true (with_lines [IsaacImports file (i :: found)] w) Hr')
          as (ls & E & F).
        exists (IsaacImports file (i :: found) :: ls). rewrite E.
        cbn [with_lines disk andb negb]. rewrite orb_true_r. split.
        -- f_equal. unfold with_lines. cbn [disk stdout].
           by rewrite <- app_assoc.
        -- constructor; [|done]. rewrite Hc. cbn [verdict]. fold f.
           by rewrite Hfound.
Qed.

Lemma verify_loop_disk dir : forall files flag w,
  disk (snd (Fix.verify_loop dir files flag w)) = disk w.
Proof.
  induction files as [|file files IH]; intros flag w; [done|].
  cbn [Fix.verify_loop]. rewrite bind_run, fix_exists_run.
  destruct (bool_decide (is_Some (disk w !! joinpath dir file))).
  - rewrite bind_run, fix_open_read_run.
    destruct (disk w !! joinpath dir file) as [[c| |]|]; try done.
    destruct (List.filter _ Fix.isaac_imports);
      rewrite bind_run, fix_print_run; by rewrite IH.
  - rewrite bind_run, fix_print_run. by rewrite IH.
Qed.

(** [verify_ardupilot_backend] leaves the disk as it is, also when it
    raises on a file that it cannot read. *)
Theorem verify_never_writes backend_dir w :
  disk (snd (Fix.verify_ardupilot_backend backend_dir w)) = disk w.
Proof.
  unfold Fix.verify_ardupilot_backend.
  rewrite bind_run, fix_print_run, bind_run.
  pose proof (verify_loop_disk backend_dir Fix.ardupilot_files false
                (with_lines [Verifying] w)) as H.
  destruct (Fix.verify_loop _ _ _ _) as [[flag|e] w']; cbn [snd] in *;
    [|exact H].
  destruct flag; cbn [negb when]; [exact H|].
  rewrite fix_print_run. exact H.
Qed.

Lemma verdict_not_clean file o : verdict file o <> Some BackendClean.
Proof.
  destruct o as [[c| |]|]; cbn [verdict]; try done.
  by destruct (List.filter (fun imp => contains (cps imp) c) Fix.isaac_imports).
Qed.

Lemma clean_files_iff (dir : path) (d : gmap path node) files :
  forallb (fun file =>
             match d !! joinpath dir file with
             | Some (File c) =>
                 forallb (fun imp => negb (contains (cps imp) c))
                   Fix.isaac_imports
             | _ => true
             end) files = true
  <-> forall file c imp,
        In file files -> d !! joinpath dir file = Some (File c) ->
        In imp Fix.isaac_imports -> contains (cps imp) c = false.
Proof.
  rewrite forallb_forall. split.
  - intros H file c imp Hf Hc Hi. specialize (H file Hf). rewrite Hc in H.
    rewrite forallb_forall in H. specialize (H imp Hi).
    by apply negb_true_iff in H.
  - intros H file Hf. destruct (d !! joinpath dir file) as [[c| |]|] eqn:Hc;
      try done.
    apply forallb_forall. intros imp Hi. apply negb_true_iff. eauto.
Qed.

(** On files that are missing or can be read, [verify_ardupilot_backend]
    returns; it prints its line for each file of the list, and it prints
    that the backend is clean exactly when no file that is there holds one
    of the four imports. *)
Theorem verify_reports backend_dir w :
  readable backend_dir Fix.ardupilot_files (disk w) ->
  exists ls,
    Fix.verify_ardupilot_backend backend_dir w
    = (Ok tt, with_lines (Verifying :: ls) w) /\
    (BackendClean ∈ ls <-> backend_clean backend_dir (disk w)) /\
    forall file, In file Fix.ardupilot_files ->
      exists l, verdict file (disk w !! joinpath backend_dir file) = Some l /\
                l ∈ ls.
Proof.
  intros Hr. unfold Fix.verify_ardupilot_backend.
  rewrite bind_run, fix_print_run, bind_run.
  destruct (verify_loop_eq backend_dir Fix.ardupilot_files false
              (with_lines [Verifying] w) Hr) as (ls & E & F).
  rewrite E. cbn [with_lines disk orb] in *.
  pose proof (clean_files_iff backend_dir (disk w) Fix.ardupilot_files) as Hc.
  fold (backend_clean backend_dir (disk w)) in Hc.
  assert (BackendClean ∉ ls) as Hno.
  { intros Hin. apply list_elem_of_lookup in Hin as [i Hi].
    destruct (Forall2_lookup_r _ _ _ _ _ F Hi) as (file & _ & Hv).
    by apply verdict_not_clean in Hv. }
  assert (forall file, In file Fix.ardupilot_files ->
            exists l, verdict file (disk w !! joinpath backend_dir file) = Some l
                      /\ l ∈ ls) as Hall.
  { intros file Hf. apply list_elem_of_In, list_elem_of_lookup in Hf as [i Hi].
    destruct (Forall2_lookup_l _ _ _ _ _ F Hi) as (l & Hl & Hv).
    exists l. split; [done|]. by apply list_elem_of_lookup_2 in Hl. }
  destruct (forallb _ Fix.ardupilot_files) eqn:Hb; cbn [negb when].
  - exists (ls ++ [BackendClean]). rewrite fix_print_run. split_and!.
    + f_equal. unfold with_lines. cbn [disk stdout].
      by rewrite <- !app_assoc.
    + split; [intros _; by apply Hc|]. intros _. apply elem_of_app. right.
      by left.
    + intros file Hf. destruct (Hall file Hf) as (l & Hv & Hl).
      exists l. split; [done|]. apply elem_of_app. by left.
  - exists ls. split_and!.
    + f_equal. unfold with_lines, ret. cbn [disk stdout].
      by rewrite <- !app_assoc.
    + split; [done|]. intros H. apply Hc in H. congruence.
    + done.
Qed.

(** ** The claims that fail as stated, on an input *)

(** C4, as stated, fails: [fix_multirotor_file] leaves the text of the
    file as it is and yet makes a backup file. *)
Lemma fix_backs_up_unchanged_file :
  fix_dynamic_control (cps "import os") = cps "import os" /\
  disk fixer_world !! ["repo"; "multirotor.py.ardupilot_backup"] = None /\
  disk (snd (Fix.fix_multirotor_file multirotor_py fixer_world))
    !! ["repo"; "multirotor.py.ardupilot_backup"]
  = Some (File (cps "import os")).
Proof. vm_compute. auto. Qed.

(** C5, as stated, fails: a text that holds neither "ardupilot" nor
    "ArduPilot" is flagged. *)
Lemma scan_flags_other_case :
  mentions_ardupilot no_wide_lower (cps "ARDUPILOT SITL") = true /\
  contains (cps "ardupilot") (cps "ARDUPILOT SITL") = false /\
  contains (cps "ArduPilot") (cps "ARDUPILOT SITL") = false.
Proof. vm_compute. auto. Qed.

(** C6, as stated, fails: with a TOML rule that does not compile, the run
    raises only when it comes to the TOML file, after it has rewritten a
    Python file on the disk. *)
Lemma bad_toml_pattern_after_python_files :
  fst (run_migration no_wide_lower
         (with_rules (PYTHON_REPLACEMENTS the_module) [("*", "x")])
         (new_tool example_root false false, example_world))
  = Raise re_error /\
  disk example_world !! people_py = Some (File (cps old_import)) /\
  disk (snd (snd (run_migration no_wide_lower
                    (with_rules (PYTHON_REPLACEMENTS the_module) [("*", "x")])
                    (new_tool example_root false false, example_world))))
    !! people_py
  = Some (File (cps "from isaacsim.core.api import World")).
Proof. vm_compute. auto. Qed.

(** C8. The record of [migrate_toml_file] does not hold the match.  The
    TOML file of the small tree holds one match of the rule of
    [TOML_REPLACEMENTS], the whole of its text; [migrate_toml_file] replaces
    it and prints a change line that shows the text of the pattern, which
    is another text.  [migrate_python_file], on the Python file of the tree,
    prints the match itself. *)
Lemma toml_records_pattern :
  let pattern := dq +:+ "omni\.isaac\.core" +:+ dq +:+ "\s*=\s*\{\}" in
  let replacement := dq +:+ "isaacsim.core.api" +:+ dq +:+ " = {}" in
  TOML_REPLACEMENTS the_module = [(pattern, replacement)] /\
  disk example_world !! extension_toml = Some (File (cps old_dependency)) /\
  re_findall pattern (cps old_dependency) = Ok [cps old_dependency] /\
  stdout (snd (snd (migrate_toml_file the_module extension_toml
                      (new_tool example_root false false, example_world))))
  = [Processing ["extensions"; "pegasus.simulator"; "config"; "extension.toml"];
     BackedUp "extension.toml.bak"; Updated 1;
     ChangeLine {| shown := cps pattern; new := replacement |}] /\
  cps pattern <> cps old_dependency /\
  disk (snd (snd (migrate_toml_file the_module extension_toml
                    (new_tool example_root false false, example_world))))
    !! extension_toml
  = Some (File (cps replacement)) /\
  stdout (snd (snd (migrate_python_file no_wide_lower the_module people_py
                      (new_tool example_root false false, example_world))))
  = [Processing ["examples"; "9_people.py"]; BackedUp "9_people.py.bak";
     Updated 1;
     ChangeLine {| shown := cps old_import;
                   new := "from isaacsim.core.api import World" |}].
Proof. vm_compute. split_and!; [done..|congruence|done|done]. Qed.

(** ** The theorems with hypotheses, on an input *)

Lemma backup_made_once_witness :
  backup_file people_py (new_tool example_root false false, kept_world)
  = (Ok tt, (new_tool example_root false false, kept_world)).
Proof.
  destruct (backup_made_once no_wide_lower example_root
              [(PYTHON_REPLACEMENTS the_module, TOML_REPLACEMENTS the_module,
                false, false)]
              example_world "examples/9_people.py" people_py
              (new_tool example_root false false) kept_world) as [H _].
  - vm_compute. reflexivity.
  - exists (File (cps "first")). vm_compute. reflexivity.
  - vm_compute. tauto.
  - exact H.
Defined.

Lemma unchanged_file_untouched_witness :
  disk (snd (Fix.fix_multirotor_file multirotor_py fixer_world))
  = backed_up ["repo"; "multirotor.py.ardupilot_backup"] (cps "import os")
      (disk fixer_world).
Proof.
  destruct (unchanged_file_untouched no_wide_lower the_module multirotor_py
              ["multirotor.py"] (new_tool example_root false false)
              fixer_world (cps "import os") []
              ["repo"; "multirotor.py.ardupilot_backup"])
    as (_ & _ & _ & H & _).
  - vm_compute. reflexivity.
  - vm_compute. reflexivity.
  - vm_compute. reflexivity.
  - vm_compute. reflexivity.
  - apply H. vm_compute. reflexivity.
Defined.

Lemma malformed_pattern_raises_at_use_witness :
  migrate_python_file no_wide_lower (with_rules [("*", "x")] []) people_py
    (new_tool example_root false false, example_world)
  = (Raise re_error,
     (new_tool example_root false false,
      with_lines [Processing ["examples"; "9_people.py"]] example_world)).
Proof.
  destruct (malformed_pattern_raises_at_use no_wide_lower
              (with_rules [("*", "x")] []) people_py
              ["examples"; "9_people.py"] (new_tool example_root false false)
              example_world (cps old_import) [] [] "*" "x" []) as [H _].
  - vm_compute. reflexivity.
  - vm_compute. reflexivity.
  - vm_compute. reflexivity.
  - vm_compute. reflexivity.
  - apply H. reflexivity.
Defined.

Lemma missing_file_tolerated_witness :
  fst (run_migration no_wide_lower the_module
         (new_tool example_root false false, example_world)) = Ok tt /\
  FileNotFound "examples/0_template_app.py"
  ∈ stdout (snd (snd (run_migration no_wide_lower the_module
                        (new_tool example_root false false, example_world)))).
Proof.
  destruct (missing_file_tolerated no_wide_lower example_root false false
              example_world "examples/0_template_app.py") as (H1 & H2 & _).
  - vm_compute. tauto.
  - vm_compute. reflexivity.
  - split; [exact H1 | exact H2].
Defined.

Lemma rule_replaces_all_witness :
  replace_loop FirstMatch [world_rule] (cps three_imports) []
  = Ok (cps "from isaacsim.core.api import World; from isaacsim.core.api import World; from isaacsim.core.api import World",
        [{| shown := cps old_import;
            new := "from isaacsim.core.api import World" |}]).
Proof.
  destruct (rule_replaces_all FirstMatch (fst world_rule) (snd world_rule)
              (regex_of (fst world_rule)) [] (cps three_imports) [])
    as (_ & _ & H).
  - vm_compute. reflexivity.
  - vm_compute. reflexivity.
  - vm_compute in H. vm_compute. exact H.
Defined.

Lemma read_failure_is_silent_witness :
  migrate_python_file no_wide_lower the_module people_py
    (new_tool example_root false false, binary_world)
  = (Ok tt, (new_tool example_root false false,
             with_lines [Processing ["examples"; "9_people.py"]; ErrorReading]
               binary_world)).
Proof.
  destruct (read_failure_is_silent no_wide_lower the_module people_py
              ["examples"; "9_people.py"] (new_tool example_root false false)
              binary_world) as [H _].
  - vm_compute. reflexivity.
  - intros c H. vm_compute in H. discriminate.
  - exact H.
Defined.

Lemma attention_scan_ignores_case_witness :
  mentions_ardupilot no_wide_lower (cps "ARDUPILOT SITL") = true.
Proof.
  destruct (attention_scan_ignores_case no_wide_lower (cps "ARDUPILOT SITL"))
    as [_ H].
  apply (H [] (cps "ARDUPILOT") (cps " SITL")).
  - vm_compute. reflexivity.
  - vm_compute. reflexivity.
Defined.

Lemma run_touches_only_listed_witness :
  disk (snd (snd (run_migration no_wide_lower
                    (with_rules (PYTHON_REPLACEMENTS the_module)
                       (TOML_REPLACEMENTS the_module))
                    (new_tool example_root false false, example_world))))
    !! readme
  = disk example_world !! readme.
Proof.
  apply (run_touches_only_listed no_wide_lower
           (PYTHON_REPLACEMENTS the_module) (TOML_REPLACEMENTS the_module)
           example_root false false example_world readme).
  intros j Hj. apply list_elem_of_In in Hj. vm_compute in Hj.
  repeat (destruct Hj as [<-|Hj]; [split; vm_compute; discriminate|]).
  destruct Hj.
Defined.

Lemma backup_path_beside_witness :
  with_suffix people_py (path_suffix people_py +:+ ".bak")
  = Ok ["repo"; "examples"; "9_people.py.bak"].
Proof.
  destruct (backup_path_beside people_py) as [H _].
  - vm_compute. reflexivity.
  - exact H.
Defined.

Lemma fixer_missing_file_raises_witness :
  Fix.fix_vehicle_file vehicle_py fixer_world
  = (Raise OSError, with_lines [Processing vehicle_py] fixer_world).
Proof.
  destruct (fixer_missing_file_raises vehicle_py fixer_world) as [H _].
  - vm_compute. reflexivity.
  - exact H.
Defined.

Lemma fix_multirotor_settles_witness :
  Fix.fix_multirotor_file multirotor_py
    (snd (Fix.fix_multirotor_file multirotor_py control_world))
  = (Ok tt,
     with_lines [Processing multirotor_py; NoChanges]
       (snd (Fix.fix_multirotor_file multirotor_py control_world))).
Proof.
  apply (fix_multirotor_settles multirotor_py
           ["repo"; "multirotor.py.ardupilot_backup"]
           (cps "from omni.isaac.dynamic_control import _dynamic_control")
           control_world).
  - vm_compute. reflexivity.
  - vm_compute. reflexivity.
Defined.

Lemma fixer_backup_once_witness :
  disk (snd (Fix.fix_vehicle_file vehicle_py vehicle_world))
    !! ["repo"; "vehicle.py.ardupilot_backup"]
  = Some (File (cps vehicle_text)).
Proof.
  destruct (fixer_backup_once vehicle_py
              ["repo"; "vehicle.py.ardupilot_backup"] (cps vehicle_text)
              vehicle_world) as [_ H].
  - vm_compute. reflexivity.
  - vm_compute. reflexivity.
  - destruct H as [H _]; [vm_compute; reflexivity | exact H].
Defined.

Lemma verify_reports_witness :
  exists ls,
    Fix.verify_ardupilot_backend backends backend_world
    = (Ok tt, with_lines (Verifying :: ls) backend_world) /\
    (BackendClean ∈ ls <-> backend_clean backends (disk backend_world)).
Proof.
  destruct (verify_reports backends backend_world) as (ls & H1 & H2 & _).
  - intros file [<-|[<-|[<-|[]]]].
    + right. eexists. vm_compute. reflexivity.
    + left. vm_compute. reflexivity.
    + right. eexists. vm_compute. reflexivity.
  - exists ls. split; [exact H1 | exact H2].
Defined.

Lemma ardupilot_files_untouched_witness :
  disk (snd (snd (run_migration no_wide_lower
                    (with_rules (PYTHON_REPLACEMENTS the_module)
                       (TOML_REPLACEMENTS the_module))
                    (new_tool example_root false false, example_world))))
    !! joinpath example_root
         "extensions/pegasus.simulator/pegasus/simulator/logic/backends/ardupilot_mavlink_backend.py"
  = disk example_world
    !! joinpath example_root
         "extensions/pegasus.simulator/pegasus/simulator/logic/backends/ardupilot_mavlink_backend.py".
Proof.
  apply (ardupilot_files_untouched no_wide_lower
           (PYTHON_REPLACEMENTS the_module) (TOML_REPLACEMENTS the_module)
           example_root false false example_world).
  vm_compute. tauto.
Defined.
